(** * arr-missing-content: the cycle engine of [main.py]

    A shallow embedding of [main.py]: the configuration read from the
    process environment, the search ledger kept in the two SQLite tables,
    the candidate fetch, the search trigger and [run_cycle].

    Conventions of the embedding.
    - Integers are [Z] (Python ints are unbounded).
    - A timestamp is a [Z]: the microseconds of a naive [datetime].  The
      tables store [datetime.isoformat()] text; on four-digit years that
      text sorts as the instants do, so [ORDER BY timestamp ASC] is the
      order of [Z].
    - Every function that touches SQLite or the network is fail-soft in
      the source ([try: ... except Exception]).  Whether a call raises is
      decided by the outside world, gathered in the record [world]; the
      functions thread the database explicitly and return the trace of
      the calls they made. *)

From Stdlib Require Import ZArith String Ascii Lia.
From stdpp Require Import base option list gmap strings.

Open Scope Z_scope.

(** ** Python primitives used by the program *)

Module Py.

Definition is_space (c : ascii) : bool :=
  let n := nat_of_ascii c in
  ((n =? 32) || ((9 <=? n) && (n <=? 13)))%nat.

Fixpoint lstrip (s : list ascii) : list ascii :=
  match s with
  | c :: s' => if is_space c then lstrip s' else s
  | [] => []
  end.

Definition strip (s : list ascii) : list ascii :=
  rev (lstrip (rev (lstrip s))).

Definition digit_val (c : ascii) : option Z :=
  let n := nat_of_ascii c in
  if ((48 <=? n) && (n <=? 57))%nat then Some (Z.of_nat n - 48) else None.

(** The digits of a decimal literal; a single underscore may stand
    between two digits. *)
Fixpoint digits (acc : Z) (after_digit : bool) (s : list ascii) : option Z :=
  match s with
  | [] => if after_digit then Some acc else None
  | c :: s' =>
      match digit_val c with
      | Some d => digits (acc * 10 + d) true s'
      | None =>
          if (nat_of_ascii c =? 95)%nat && after_digit
          then digits acc false s'
          else None
      end
  end.

(** The interpreter's limit on the digits of an integer string. *)
Definition max_str_digits : nat := 4300.

Definition count_digits (s : list ascii) : nat :=
  length (List.filter (fun c => match digit_val c with Some _ => true | None => false end) s).

(** [int(s)] on a string, base ten: surrounding white space, an optional
    sign, decimal digits, at most [max_str_digits] of them.  [None]
    stands for [ValueError].  (ASCII digits and white space only.) *)
Definition int (s : string) : option Z :=
  let body := strip (list_ascii_of_string s) in
  if (max_str_digits <? count_digits body)%nat then None
  else
    match body with
    | c :: s' =>
        if (nat_of_ascii c =? 45)%nat then Z.opp <$> digits 0 false s'
        else if (nat_of_ascii c =? 43)%nat then digits 0 false s'
        else digits 0 false (c :: s')
    | [] => None
    end.

(** [l[:n]]: the first [n] items, and for a negative [n] all but the
    last [-n]. *)
Definition slice_to {A} (l : list A) (n : Z) : list A :=
  if 0 <=? n then take (Z.to_nat n) l
  else take (Z.to_nat (Z.of_nat (length l) + n)) l.

(** Truth value of [os.getenv(k)]: set and not the empty string. *)
Definition truthy (v : option string) : bool :=
  match v with
  | Some s => negb (String.eqb s EmptyString)
  | None => false
  end.

(** [timedelta(days=d)] in microseconds; [None] stands for the
    [OverflowError] raised outside of +-999999999 days. *)
Definition timedelta_days (d : Z) : option Z :=
  if Z.abs d <=? 999999999 then Some (d * 86400000000) else None.

End Py.

(** ** Configuration & environment variables *)

Inductive category := sonarr | radarr.

#[global] Instance category_eq_dec : EqDecision category.
Proof. solve_decision. Defined.

Record settings := {
  REQUEST_DELAY_SECONDS : Z;
  MAX_CYCLE_DAYS : Z;
  RUN_EVERY_MINUTES : Z;
  SONARR_ENABLED : bool;
  SONARR_LIMIT : Z;
  SONARR_CUTOFF_LIMIT : Z;
  RADARR_ENABLED : bool;
  RADARR_LIMIT : Z;
  RADARR_CUTOFF_LIMIT : Z
}.

(** [os.getenv(key, default)] *)
Definition getenv (env : gmap string string) (key default : string) : string :=
  match env !! key with
  | Some v => v
  | None => default
  end.

(** The module-level assignments, top to bottom.  [None]: an [int()]
    raised and the module did not load. *)
Definition load_settings (env : gmap string string) : option settings :=
  delay ← Py.int (getenv env "REQUEST_DELAY_SECONDS" "2");
  days ← Py.int (getenv env "MAX_CYCLE_DAYS" "30");
  every ← Py.int (getenv env "RUN_EVERY" "15");
  s_limit ← Py.int (getenv env "SONARR_LIMIT" "10");
  s_cutoff ← Py.int (getenv env "SONARR_CUTOFF_LIMIT" "0");
  r_limit ← Py.int (getenv env "RADARR_LIMIT" "10");
  r_cutoff ← Py.int (getenv env "RADARR_CUTOFF_LIMIT" "0");
  Some {|
    REQUEST_DELAY_SECONDS := delay;
    MAX_CYCLE_DAYS := days;
    RUN_EVERY_MINUTES := every;
    SONARR_ENABLED :=
      Py.truthy (env !! "SONARR_URL") && Py.truthy (env !! "SONARR_API_KEY");
    SONARR_LIMIT := s_limit;
    SONARR_CUTOFF_LIMIT := s_cutoff;
    RADARR_ENABLED :=
      Py.truthy (env !! "RADARR_URL") && Py.truthy (env !! "RADARR_API_KEY");
    RADARR_LIMIT := r_limit;
    RADARR_CUTOFF_LIMIT := r_cutoff
  |}.

(** The per-category selections at the head of [run_cycle]. *)
Definition app_enabled (st : settings) (app : category) : bool :=
  match app with sonarr => SONARR_ENABLED st | radarr => RADARR_ENABLED st end.

Definition app_limit (st : settings) (app : category) : Z :=
  match app with sonarr => SONARR_LIMIT st | radarr => RADARR_LIMIT st end.

Definition app_cutoff_limit (st : settings) (app : category) : Z :=
  match app with
  | sonarr => SONARR_CUTOFF_LIMIT st
  | radarr => RADARR_CUTOFF_LIMIT st
  end.

(** The same settings with another cutoff limit for one category. *)
Definition with_cutoff_limit (st : settings) (app : category) (c : Z) : settings :=
  match app with
  | sonarr =>
      {| REQUEST_DELAY_SECONDS := REQUEST_DELAY_SECONDS st;
         MAX_CYCLE_DAYS := MAX_CYCLE_DAYS st;
         RUN_EVERY_MINUTES := RUN_EVERY_MINUTES st;
         SONARR_ENABLED := SONARR_ENABLED st;
         SONARR_LIMIT := SONARR_LIMIT st;
         SONARR_CUTOFF_LIMIT := c;
         RADARR_ENABLED := RADARR_ENABLED st;
         RADARR_LIMIT := RADARR_LIMIT st;
         RADARR_CUTOFF_LIMIT := RADARR_CUTOFF_LIMIT st |}
  | radarr =>
      {| REQUEST_DELAY_SECONDS := REQUEST_DELAY_SECONDS st;
         MAX_CYCLE_DAYS := MAX_CYCLE_DAYS st;
         RUN_EVERY_MINUTES := RUN_EVERY_MINUTES st;
         SONARR_ENABLED := SONARR_ENABLED st;
         SONARR_LIMIT := SONARR_LIMIT st;
         SONARR_CUTOFF_LIMIT := SONARR_CUTOFF_LIMIT st;
         RADARR_ENABLED := RADARR_ENABLED st;
         RADARR_LIMIT := RADARR_LIMIT st;
         RADARR_CUTOFF_LIMIT := c |}
  end.

(** ** Database management *)

(** A row of [sonarr_searches] / [radarr_searches]: [(id, timestamp)]. *)
Definition row : Type := Z * Z.

Record database := {
  sonarr_searches : list row;
  radarr_searches : list row
}.

(** [init_db] on a fresh file: both tables exist and are empty. *)
Definition init_db : database :=
  {| sonarr_searches := []; radarr_searches := [] |}.

(** The database file as [init_db] finds it: a table is [None] until it
    is created. *)
Record db_file := {
  sonarr_table : option (list row);
  radarr_table : option (list row)
}.

(** [CREATE TABLE IF NOT EXISTS]: a table that exists keeps its rows. *)
Definition create_if_not_exists (t : option (list row)) : option (list row) :=
  match t with
  | Some rows => Some rows
  | None => Some []
  end.

(** [init_db] on any file.  [connect_ok], [sonarr_ok], [radarr_ok]: the
    connection and the two CREATE statements go through; the first one
    that raises ends the function (the error is logged).  A CREATE takes
    effect when it runs: [sqlite3] opens no transaction for it. *)
Definition init_db_file (connect_ok sonarr_ok radarr_ok : bool) (f : db_file) : db_file :=
  if connect_ok then
    if sonarr_ok then
      let f1 := {| sonarr_table := create_if_not_exists (sonarr_table f);
                   radarr_table := radarr_table f |} in
      if radarr_ok then
        {| sonarr_table := sonarr_table f1;
           radarr_table := create_if_not_exists (radarr_table f1) |}
      else f1
    else f
  else f.

(** The tables of a file in which both exist. *)
Definition open_tables (f : db_file) : option database :=
  match sonarr_table f, radarr_table f with
  | Some s, Some r => Some {| sonarr_searches := s; radarr_searches := r |}
  | _, _ => None
  end.

(** The table named [f"{app_name}_searches"]. *)
Definition table (app : category) (db : database) : list row :=
  match app with
  | sonarr => sonarr_searches db
  | radarr => radarr_searches db
  end.

Definition set_table (app : category) (rows : list row) (db : database) : database :=
  match app with
  | sonarr => {| sonarr_searches := rows; radarr_searches := radarr_searches db |}
  | radarr => {| sonarr_searches := sonarr_searches db; radarr_searches := rows |}
  end.

Definition has_id (item_id : Z) (rows : list row) : bool :=
  existsb (fun r => r.1 =? item_id) rows.

(** [INSERT OR IGNORE INTO t (id, timestamp) VALUES (?, ?)] with
    [id INTEGER PRIMARY KEY]: a row whose id is taken is dropped.  The
    list stands for the set of rows of the table: the program reads a
    table through its ids and its least timestamp only, and the place of
    a row in the list has no meaning. *)
Definition insert_or_ignore (item_id timestamp : Z) (rows : list row) : list row :=
  if has_id item_id rows then rows else rows ++ [(item_id, timestamp)].

(** [SELECT timestamp FROM t ORDER BY timestamp ASC LIMIT 1] *)
Definition oldest_timestamp (rows : list row) : option Z :=
  match rows with
  | [] => None
  | r :: rs => Some (foldr Z.min r.2 (rs.*2))
  end.

(** The timestamp stored for an id. *)
Definition timestamp_of (item_id : Z) (rows : list row) : option Z :=
  snd <$> List.find (fun r => r.1 =? item_id) rows.

(** The rows that carry an id. *)
Definition entries_of (item_id : Z) (rows : list row) : list row :=
  List.filter (fun r => r.1 =? item_id) rows.

(** The PRIMARY KEY constraint of a table. *)
Definition primary_key (rows : list row) : Prop := NoDup (rows.*1).

(** [get_searched_ids]; [ok = false]: SQLite raised, the error is logged
    and the empty set returned. *)
Definition get_searched_ids (app : category) (ok : bool) (db : database) : gset Z :=
  if ok then list_to_set ((table app db).*1) else ∅.

(** [add_searched_id]; [timestamp] is [datetime.now()] of the call;
    [ok = false]: SQLite raised, nothing is written. *)
Definition add_searched_id (app : category) (item_id timestamp : Z) (ok : bool)
    (db : database) : database :=
  if ok then set_table app (insert_or_ignore item_id timestamp (table app db)) db
  else db.

(** [wipe_table]: [DELETE FROM t]; [ok = false]: SQLite raised. *)
Definition wipe_table (app : category) (ok : bool) (db : database) : database :=
  if ok then set_table app [] db else db.

(** ** The outside world during one cycle *)

(** A decoded JSON body, as far as [fetch_ids_from_endpoint] looks at it.
    An item is the value of its ['id'] key, [None] when the key is
    missing ([KeyError]). *)
Inductive json :=
| JRecords (items : list (option Z))   (* a dict with a 'records' key *)
| JList (items : list (option Z))      (* a bare list *)
| JOther.                              (* any other value *)

(** [requests.get] + [raise_for_status] + [response.json()]:
    [RespError] is any exception among them. *)
Inductive response :=
| RespError
| RespJson (data : json).

(** An entry of Radarr's [/api/v3/movie] catalogue. *)
Record movie := {
  movie_id : option Z;
  hasFile : bool;
  monitored : bool
}.

Inductive movies_response :=
| MoviesError
| Movies (movies : list movie).

Record world := {
  now : Z;                          (* [datetime.now()] in [check_safety_net] *)
  oldest_read_ok : bool;            (* the SELECT of [check_safety_net] *)
  safety_wipe_ok : bool;            (* the DELETE asked by the safety net *)
  missing_resp : response;          (* GET /api/v3/wanted/missing *)
  movies_resp : movies_response;    (* GET /api/v3/movie *)
  cutoff_resp : response;           (* GET /api/v3/wanted/cutoff *)
  ids_read_ok : bool;               (* the SELECT of [get_searched_ids] *)
  reset_wipe_ok : bool;             (* the DELETE of the completion reset *)
  post_ok : Z -> bool;              (* POST /api/v3/command for an id *)
  insert_ok : Z -> bool;            (* the INSERT for an id *)
  insert_time : Z -> Z              (* [datetime.now()] of that INSERT *)
}.

(** What a cycle does, in order: the calls it makes, whether or not they
    go through. *)
Inductive query := QMissing | QMovies | QCutoff.

Inductive event :=
| EvGet (app : category) (q : query)                  (* [requests.get] *)
| EvPost (app : category) (item_id : Z) (ok : bool)   (* [requests.post] and its outcome *)
| EvInsert (app : category) (item_id : Z)             (* [add_searched_id] is called *)
| EvSleep (seconds : Z)                               (* [time.sleep] *)
| EvWipe (app : category).                            (* [wipe_table] is called *)

#[global] Instance query_eq_dec : EqDecision query.
Proof. solve_decision. Defined.

#[global] Instance event_eq_dec : EqDecision event.
Proof. solve_decision. Defined.

(** The ids of the search commands of a trace, in order. *)
Definition posted_ids (tr : list event) : list Z :=
  omap (fun e => match e with EvPost _ i _ => Some i | _ => None end) tr.

(** The search commands of a trace with their outcomes, in order. *)
Definition post_outcomes (tr : list event) : list (Z * bool) :=
  omap (fun e => match e with EvPost _ i ok => Some (i, ok) | _ => None end) tr.

(** ** Safety net *)

Definition check_safety_net (st : settings) (app : category) (w : world)
    (db : database) : database * list event :=
  if oldest_read_ok w then
    match oldest_timestamp (table app db) with
    | Some oldest_date =>
        match Py.timedelta_days (MAX_CYCLE_DAYS st) with
        | Some max_age =>
            if now w - oldest_date >? max_age
            then (wipe_table app (safety_wipe_ok w) db, [EvWipe app])
            else (db, [])
        | None => (db, [])
        end
    | None => (db, [])
    end
  else (db, []).

(** ** API interaction *)

(** [fetch_ids_from_endpoint]: [ids] stays [[]] unless the whole
    comprehension went through. *)
Definition fetch_ids_from_endpoint (resp : response) : list Z :=
  match resp with
  | RespJson (JRecords items) => default [] (mapM id items)
  | RespJson (JList items) => default [] (mapM id items)
  | RespJson JOther => []
  | RespError => []
  end.

(** [[m['id'] for m in movies if not m.get('hasFile') and m.get('monitored')]];
    [None]: a selected movie has no ['id']. *)
Definition radarr_missing (movies : list movie) : option (list Z) :=
  mapM movie_id (List.filter (fun m => negb (hasFile m) && monitored m) movies).

(** ** CPython's small sets of ints

    [list(set(xs))] lists the keys by their slot in the hash table of
    the set.  The table of a set of fewer than five keys has eight slots;
    a non-negative int below [2^61 - 1] is its own hash, [set_add_entry]
    tries slot [hash & 7] first and on a collision moves on to
    [(5 * i + 1 + perturb) & 7] with [perturb >>= 5].  [small_set_list]
    is that table, and only that table: it does not grow. *)

Fixpoint set_add_probe (fuel : nat) (slots : list (option Z)) (key i perturb : Z)
    : list (option Z) :=
  match fuel with
  | O => slots
  | S fuel' =>
      match slots !! Z.to_nat i with
      | Some None => <[Z.to_nat i := Some key]> slots
      | Some (Some k) =>
          if k =? key then slots
          else
            let perturb' := Z.shiftr perturb 5 in
            set_add_probe fuel' slots key (Z.land (i * 5 + 1 + perturb') 7) perturb'
      | None => slots
      end
  end.

Definition set_add_entry (slots : list (option Z)) (key : Z) : list (option Z) :=
  set_add_probe 64 slots key (Z.land key 7) key.

Definition small_set_list (xs : list Z) : list Z :=
  omap id (fold_left set_add_entry xs (replicate 8 None)).

(** ** First-discovery order

    The order the spec words for step 3: each id at the place where the
    sub-query results, missing first and cutoff after, show it first. *)
Fixpoint discovery_order (xs : list Z) : list Z :=
  match xs with
  | [] => []
  | x :: xs' => x :: List.filter (fun y => negb (y =? x)) (discovery_order xs')
  end.

(** ** Sample settings, worlds and databases *)

(** Both categories enabled, the defaults of the source but for the two
    limits. *)
Definition sample_settings (limit cutoff_limit : Z) : settings :=
  {| REQUEST_DELAY_SECONDS := 2;
     MAX_CYCLE_DAYS := 30;
     RUN_EVERY_MINUTES := 15;
     SONARR_ENABLED := true;
     SONARR_LIMIT := limit;
     SONARR_CUTOFF_LIMIT := cutoff_limit;
     RADARR_ENABLED := true;
     RADARR_LIMIT := limit;
     RADARR_CUTOFF_LIMIT := cutoff_limit |}.

(** A world at instant [t] in which SQLite never fails. *)
Definition sample_world (t : Z) (missing : response) (movies : movies_response)
    (cutoff : response) (post : Z -> bool) : world :=
  {| now := t;
     oldest_read_ok := true;
     safety_wipe_ok := true;
     missing_resp := missing;
     movies_resp := movies;
     cutoff_resp := cutoff;
     ids_read_ok := true;
     reset_wipe_ok := true;
     post_ok := post;
     insert_ok := fun _ => true;
     insert_time := fun _ => t |}.

Definition records (ids : list Z) : response := RespJson (JRecords (Some <$> ids)).

(** The wanted/missing endpoint answers with [ids], nothing else is
    wanted, every POST succeeds. *)
Definition missing_world (t : Z) (ids : list Z) : world :=
  sample_world t (records ids) (Movies []) (records []) (fun _ => true).

Definition sonarr_ledger (rows : list row) : database :=
  {| sonarr_searches := rows; radarr_searches := [] |}.

Definition day : Z := 86400000000.

(** What [load_settings] makes of an empty environment. *)
Definition default_settings : settings :=
  {| REQUEST_DELAY_SECONDS := 2;
     MAX_CYCLE_DAYS := 30;
     RUN_EVERY_MINUTES := 15;
     SONARR_ENABLED := false;
     SONARR_LIMIT := 10;
     SONARR_CUTOFF_LIMIT := 0;
     RADARR_ENABLED := false;
     RADARR_LIMIT := 10;
     RADARR_CUTOFF_LIMIT := 0 |}.

(** Nothing is missing and the cutoff endpoint lists id 3. *)
Definition cutoff_only_world : world :=
  sample_world 0 (records []) (Movies []) (records [3]) (fun _ => true).

(** The missing request and the catalogue request fail, the cutoff
    endpoint lists id 3. *)
Definition missing_down_world : world :=
  sample_world 0 RespError MoviesError (records [3]) (fun _ => true).

(** The search command for id 1 fails, every other one succeeds. *)
Definition failing_post_world : world :=
  sample_world 0 (records [1; 2]) (Movies []) (records [])
    (fun i => negb (i =? 1)).

(** The wanted/missing endpoint answers with [ids] and the read of the
    ledger fails. *)
Definition read_failure_world (ids : list Z) : world :=
  {| now := 0;
     oldest_read_ok := true;
     safety_wipe_ok := true;
     missing_resp := records ids;
     movies_resp := Movies [];
     cutoff_resp := records [];
     ids_read_ok := false;
     reset_wipe_ok := true;
     post_ok := fun _ => true;
     insert_ok := fun _ => true;
     insert_time := fun _ => 0 |}.

(** An environment that sets Sonarr's URL and API key and nothing else,
    and the settings it loads. *)
Definition sonarr_env : gmap string string :=
  <["SONARR_URL" := "http://sonarr:8989"]> (<["SONARR_API_KEY" := "key"]> ∅).

Definition sonarr_env_settings : settings :=
  {| REQUEST_DELAY_SECONDS := 2;
     MAX_CYCLE_DAYS := 30;
     RUN_EVERY_MINUTES := 15;
     SONARR_ENABLED := true;
     SONARR_LIMIT := 10;
     SONARR_CUTOFF_LIMIT := 0;
     RADARR_ENABLED := false;
     RADARR_LIMIT := 10;
     RADARR_CUTOFF_LIMIT := 0 |}.

(** The settings of [sample_settings 10 0] with another
    [MAX_CYCLE_DAYS]. *)
Definition settings_with_days (days : Z) : settings :=
  {| REQUEST_DELAY_SECONDS := 2;
     MAX_CYCLE_DAYS := days;
     RUN_EVERY_MINUTES := 15;
     SONARR_ENABLED := true;
     SONARR_LIMIT := 10;
     SONARR_CUTOFF_LIMIT := 0;
     RADARR_ENABLED := true;
     RADARR_LIMIT := 10;
     RADARR_CUTOFF_LIMIT := 0 |}.

(** Day 31: id 7 is missing; the SELECT and the DELETE of the safety net
    go through or not as [read_ok] and [wipe_ok] say. *)
Definition day31_world (read_ok wipe_ok : bool) : world :=
  {| now := 31 * day;
     oldest_read_ok := read_ok;
     safety_wipe_ok := wipe_ok;
     missing_resp := records [7];
     movies_resp := Movies [];
     cutoff_resp := records [];
     ids_read_ok := true;
     reset_wipe_ok := true;
     post_ok := fun _ => true;
     insert_ok := fun _ => true;
     insert_time := fun _ => 31 * day |}.

(** A catalogue: movie 1 is monitored and has no file, movie 2 has its
    file, movie 3 is not monitored. *)
Definition sample_movies : list movie :=
  [ {| movie_id := Some 1; hasFile := false; monitored := true |};
    {| movie_id := Some 2; hasFile := true; monitored := true |};
    {| movie_id := Some 3; hasFile := false; monitored := false |} ].

Section CycleEngine.

(** [list(set(xs))]: the items of [xs] without repetition, in the
    iteration order of the set, which the language leaves open. *)
Variable set_to_list : list Z -> list Z.

Hypothesis set_to_list_NoDup : forall xs, NoDup (set_to_list xs).
Hypothesis elem_of_set_to_list : forall x xs, x ∈ set_to_list xs <-> x ∈ xs.

(** [get_combined_content]: the unified list of ids and the GETs made. *)
Definition get_combined_content (app : category) (w : world)
    (limit cutoff_limit : Z) : list Z * list event :=
  match app with
  | sonarr =>
      let missing_ids := fetch_ids_from_endpoint (missing_resp w) in
      if cutoff_limit >? 0 then
        let cutoff_ids := fetch_ids_from_endpoint (cutoff_resp w) in
        (set_to_list (missing_ids ++ cutoff_ids),
         [EvGet sonarr QMissing; EvGet sonarr QCutoff])
      else (set_to_list missing_ids, [EvGet sonarr QMissing])
  | radarr =>
      match movies_resp w with
      | Movies movies =>
          match radarr_missing movies with
          | Some missing_ids =>
              if cutoff_limit >? 0 then
                let cutoff_ids := fetch_ids_from_endpoint (cutoff_resp w) in
                (set_to_list (missing_ids ++ cutoff_ids),
                 [EvGet radarr QMovies; EvGet radarr QCutoff])
              else (set_to_list missing_ids, [EvGet radarr QMovies])
          | None => (set_to_list [], [EvGet radarr QMovies])
          end
      | MoviesError => (set_to_list [], [EvGet radarr QMovies])
      end
  end.

(** [trigger_search]: the [for] loop over [item_ids].  A POST that
    raises leaves the [try] block at once: nothing is recorded and the
    [time.sleep] at its end is not reached.  [EvSleep d] is a
    [time.sleep(d)] that returns; the delays that [time.sleep] refuses,
    9223372037 seconds and more, are outside the model. *)
Fixpoint trigger_search (st : settings) (app : category) (w : world)
    (item_ids : list Z) (db : database) : database * list event :=
  match item_ids with
  | [] => (db, [])
  | item_id :: rest =>
      if post_ok w item_id then
        let db1 :=
          add_searched_id app item_id (insert_time w item_id)
            (insert_ok w item_id) db in
        let pause :=
          if REQUEST_DELAY_SECONDS st >? 0
          then [EvSleep (REQUEST_DELAY_SECONDS st)] else [] in
        let '(db2, tr) := trigger_search st app w rest db1 in
        (db2, EvPost app item_id true :: EvInsert app item_id :: pause ++ tr)
      else
        let '(db2, tr) := trigger_search st app w rest db in
        (db2, EvPost app item_id false :: tr)
  end.

(** ** Core logic *)

(** Steps 3 to 5 of [run_cycle], from the candidates on. *)
Definition dispatch (st : settings) (app : category) (w : world)
    (all_candidates : list Z) (db : database) : database * list event :=
  match all_candidates with
  | [] => (db, [])
  | _ =>
      let searched_ids := get_searched_ids app (ids_read_ok w) db in
      let target_list := filter (fun i => i ∉ searched_ids) all_candidates in
      match target_list with
      | [] =>
          if (0 <? size searched_ids)%nat
          then (wipe_table app (reset_wipe_ok w) db, [EvWipe app])
          else (db, [])
      | _ =>
          let batch_to_search := Py.slice_to target_list (app_limit st app) in
          trigger_search st app w batch_to_search db
      end
  end.

Definition run_cycle (st : settings) (app : category) (w : world)
    (db : database) : database * list event :=
  if app_enabled st app then
    let '(db1, tr1) := check_safety_net st app w db in
    let '(all_candidates, tr2) :=
      get_combined_content app w (app_limit st app) (app_cutoff_limit st app) in
    let '(db2, tr3) := dispatch st app w all_candidates db1 in
    (db2, tr1 ++ tr2 ++ tr3)
  else (db, []).

(** [job]: the Sonarr cycle and then the Radarr cycle, each one if its
    category is enabled, each one in its own world. *)
Definition job (st : settings) (w_sonarr w_radarr : world) (db : database)
    : database * list event :=
  let '(db1, tr1) :=
    if SONARR_ENABLED st then run_cycle st sonarr w_sonarr db else (db, []) in
  let '(db2, tr2) :=
    if RADARR_ENABLED st then run_cycle st radarr w_radarr db1 else (db1, []) in
  (db2, tr1 ++ tr2).

(** The candidate list of a cycle (step 2) and the searched set its
    filter loads (step 3, after the safety net ran). *)
Definition cycle_candidates (st : settings) (app : category) (w : world) : list Z :=
  (get_combined_content app w (app_limit st app) (app_cutoff_limit st app)).1.

Definition cycle_searched (st : settings) (app : category) (w : world)
    (db : database) : gset Z :=
  get_searched_ids app (ids_read_ok w) (check_safety_net st app w db).1.

Definition cycle_target (st : settings) (app : category) (w : world)
    (db : database) : list Z :=
  filter (fun i => i ∉ cycle_searched st app w db) (cycle_candidates st app w).

(** *** Python primitives *)

Example int_plain : Py.int "15" = Some 15.
Proof. reflexivity. Qed.

Example int_signed_spaced : Py.int " -1_000 " = Some (-1000).
Proof. reflexivity. Qed.

Example int_rejects :
  Py.int "1__0" = None /\ Py.int "" = None /\ Py.int "- 5" = None.
Proof. repeat split; reflexivity. Qed.

Example int_digit_limit :
  Py.int (string_of_list_ascii (repeat "0"%char 4300)) = Some 0
  /\ Py.int (string_of_list_ascii (repeat "0"%char 4301)) = None.
Proof. split; vm_compute; reflexivity. Qed.

Example slice_to_negative : Py.slice_to [1; 2; 3] (-1) = [1; 2].
Proof. reflexivity. Qed.

Lemma slice_to_nil {A} n : Py.slice_to (@nil A) n = [].
Proof. unfold Py.slice_to. destruct (0 <=? n); apply take_nil. Qed.

Lemma slice_to_prefix {A} (l : list A) n : Py.slice_to l n `prefix_of` l.
Proof. unfold Py.slice_to. destruct (0 <=? n); apply prefix_take. Qed.

Lemma slice_to_length {A} (l : list A) n :
  0 <= n -> Z.of_nat (length (Py.slice_to l n)) <= n.
Proof.
  intros Hn. unfold Py.slice_to.
  destruct (Z.leb_spec 0 n) as [_|?]; [|lia].
  rewrite length_take. lia.
Qed.

Lemma elem_of_slice_to {A} (l : list A) n x : x ∈ Py.slice_to l n -> x ∈ l.
Proof.
  intros Hx. destruct (slice_to_prefix l n) as [k Hk].
  rewrite Hk. apply elem_of_app. by left.
Qed.

(** *** The ledger *)

Lemma table_set_table app rows db : table app (set_table app rows db) = rows.
Proof. by destruct app. Qed.

Lemma table_set_table_ne app app' rows db :
  app <> app' -> table app' (set_table app rows db) = table app' db.
Proof. by destruct app, app'. Qed.

Lemma set_table_table app db : set_table app (table app db) db = db.
Proof. by destruct app, db. Qed.

Lemma has_id_true i rows : has_id i rows = true <-> i ∈ rows.*1.
Proof.
  unfold has_id. induction rows as [|[j t] rows IH]; simpl.
  - split; [done | by intros ?%elem_of_nil].
  - rewrite orb_true_iff, IH, elem_of_cons, Z.eqb_eq. simpl.
    split; (intros [?|?]; [left | right]); done.
Qed.

Lemma has_id_insert_or_ignore i t rows :
  has_id i (insert_or_ignore i t rows) = true.
Proof.
  unfold insert_or_ignore. destruct (has_id i rows) eqn:Hi; [done|].
  apply has_id_true. rewrite fmap_app. apply elem_of_app. right.
  simpl. apply list_elem_of_singleton. done.
Qed.

Lemma insert_or_ignore_present i t rows :
  i ∈ rows.*1 -> insert_or_ignore i t rows = rows.
Proof. intros Hi%has_id_true. unfold insert_or_ignore. by rewrite Hi. Qed.

Lemma insert_or_ignore_primary_key i t rows :
  primary_key rows -> primary_key (insert_or_ignore i t rows).
Proof.
  unfold primary_key, insert_or_ignore. intros Hrows.
  destruct (has_id i rows) eqn:Hi; [done|].
  rewrite fmap_app. apply NoDup_app. split; [done|]. split.
  - intros j Hj ->%list_elem_of_singleton.
    apply has_id_true in Hj. simpl in Hj. congruence.
  - apply NoDup_singleton.
Qed.

Lemma entries_of_absent i rows : i ∉ rows.*1 -> entries_of i rows = [].
Proof.
  unfold entries_of. induction rows as [|[j t] rows IH]; simpl; [done|].
  rewrite not_elem_of_cons. intros [Hne Hi]. simpl in Hne.
  destruct (Z.eqb_spec j i); [congruence | auto].
Qed.

Lemma entries_of_primary_key i rows :
  primary_key rows -> i ∈ rows.*1 -> length (entries_of i rows) = 1%nat.
Proof.
  unfold primary_key, entries_of.
  induction rows as [|[j t] rows IH]; simpl.
  - by intros _ ?%elem_of_nil.
  - rewrite NoDup_cons, elem_of_cons. intros [Hj Hnd] Hi.
    destruct (Z.eqb_spec j i) as [->|Hne].
    + simpl. f_equal. fold (entries_of i rows).
      by rewrite entries_of_absent.
    + destruct Hi as [Hi|Hi]; [congruence | auto].
Qed.

Lemma timestamp_of_app_present i rows more :
  i ∈ rows.*1 -> timestamp_of i (rows ++ more) = timestamp_of i rows.
Proof.
  unfold timestamp_of. induction rows as [|[j t] rows IH]; simpl.
  - by intros ?%elem_of_nil.
  - rewrite elem_of_cons. intros Hi. destruct (Z.eqb_spec j i) as [|Hne]; [done|].
    destruct Hi as [Hi|Hi]; [congruence | auto].
Qed.

Lemma timestamp_of_present i rows :
  i ∈ rows.*1 -> exists t, timestamp_of i rows = Some t.
Proof.
  unfold timestamp_of. induction rows as [|[j t] rows IH]; simpl.
  - by intros ?%elem_of_nil.
  - rewrite elem_of_cons. intros Hi.
    destruct (Z.eqb_spec j i) as [|Hne]; [by eexists|].
    destruct Hi as [Hi|Hi]; [congruence | auto].
Qed.

Lemma timestamp_of_absent i rows : i ∉ rows.*1 -> timestamp_of i rows = None.
Proof.
  unfold timestamp_of. induction rows as [|[j t] rows IH]; simpl; [done|].
  rewrite not_elem_of_cons. intros [Hne Hi]. simpl in Hne.
  destruct (Z.eqb_spec j i); [congruence | auto].
Qed.

Lemma timestamp_of_insert_absent i t rows :
  i ∉ rows.*1 -> timestamp_of i (insert_or_ignore i t rows) = Some t.
Proof.
  intros Hi. unfold insert_or_ignore.
  destruct (has_id i rows) eqn:Hh; [by apply has_id_true in Hh|].
  clear Hh. unfold timestamp_of.
  induction rows as [|[j u] rows IH]; simpl.
  - by rewrite Z.eqb_refl.
  - apply not_elem_of_cons in Hi as [Hne Hi]. simpl in Hne.
    destruct (Z.eqb_spec j i); [congruence | auto].
Qed.

(** *** Traces *)

Lemma posted_ids_app tr1 tr2 :
  posted_ids (tr1 ++ tr2) = posted_ids tr1 ++ posted_ids tr2.
Proof. apply omap_app. Qed.

Lemma check_safety_net_posts st app w db :
  posted_ids (check_safety_net st app w db).2 = [].
Proof.
  unfold check_safety_net.
  repeat (case_match; simpl; try done).
Qed.

Lemma get_combined_content_posts app w limit cutoff_limit :
  posted_ids (get_combined_content app w limit cutoff_limit).2 = [].
Proof.
  unfold get_combined_content.
  repeat (case_match; simpl; try done).
Qed.

(** Every id handed to [trigger_search] gets its POST, in order. *)
Lemma trigger_search_posts st app w item_ids db :
  posted_ids (trigger_search st app w item_ids db).2 = item_ids.
Proof.
  revert db. induction item_ids as [|i rest IH]; intros db; simpl; [done|].
  destruct (post_ok w i).
  - specialize (IH (add_searched_id app i (insert_time w i) (insert_ok w i) db)).
    destruct (trigger_search st app w rest _) as [db2 tr]. simpl in *.
    rewrite posted_ids_app, IH.
    by destruct (REQUEST_DELAY_SECONDS st >? 0).
  - specialize (IH db).
    destruct (trigger_search st app w rest db) as [db2 tr]. simpl in *.
    by rewrite IH.
Qed.

Lemma dispatch_posts st app w all_candidates db :
  posted_ids (dispatch st app w all_candidates db).2 =
  Py.slice_to
    (filter (fun i => i ∉ get_searched_ids app (ids_read_ok w) db) all_candidates)
    (app_limit st app).
Proof.
  unfold dispatch. destruct all_candidates as [|c cs].
  - by rewrite filter_nil, slice_to_nil.
  - destruct (filter _ (c :: cs)) as [|t ts] eqn:Hf.
    + rewrite slice_to_nil. by destruct (0 <? size _)%nat.
    + apply trigger_search_posts.
Qed.

Lemma run_cycle_enabled st app w db :
  app_enabled st app = true ->
  run_cycle st app w db =
  (let r1 := check_safety_net st app w db in
   let r2 := get_combined_content app w (app_limit st app) (app_cutoff_limit st app) in
   let r3 := dispatch st app w r2.1 r1.1 in
   (r3.1, r1.2 ++ r2.2 ++ r3.2)).
Proof.
  intros He. unfold run_cycle. rewrite He.
  destruct (check_safety_net st app w db) as [db1 tr1].
  destruct (get_combined_content app w _ _) as [cands tr2]. simpl.
  by destruct (dispatch st app w cands db1).
Qed.

Lemma run_cycle_disabled st app w db :
  app_enabled st app = false -> run_cycle st app w db = (db, []).
Proof. intros He. unfold run_cycle. by rewrite He. Qed.

(** The search commands of a cycle are the batch of step 5. *)
Lemma run_cycle_posts st app w db :
  app_enabled st app = true ->
  posted_ids (run_cycle st app w db).2 =
  Py.slice_to (cycle_target st app w db) (app_limit st app).
Proof.
  intros He. rewrite (run_cycle_enabled _ _ _ _ He). simpl.
  rewrite !posted_ids_app, check_safety_net_posts, get_combined_content_posts.
  simpl. apply dispatch_posts.
Qed.

(** *** The filter and the batch *)

Lemma filter_all_searched (S : gset Z) (l : list Z) :
  (forall i, i ∈ l -> i ∈ S) -> filter (fun i => i ∉ S) l = [].
Proof.
  induction l as [|x l IH]; intros Hl; [done|].
  rewrite filter_cons_False.
  - apply IH. intros i Hi. apply Hl. by right.
  - intros Hx. apply Hx, Hl. by left.
Qed.

(** C2 (as amended).  In a cycle of an enabled category the filter keeps
    the ids of the candidate list that the loaded searched set lacks, in
    the order of the candidate list, which is the list
    [get_combined_content] returned; the search commands of the cycle
    are the first [limit] ids of that target, in that order.  Batch and
    target are thus fixed by the candidate list, the searched set and
    the limit. *)
Theorem target_keeps_candidate_order st app w db :
  app_enabled st app = true ->
  cycle_target st app w db `sublist_of` cycle_candidates st app w
  /\ (forall i, i ∈ cycle_target st app w db <->
                i ∈ cycle_candidates st app w /\ i ∉ cycle_searched st app w db)
  /\ posted_ids (run_cycle st app w db).2 =
     Py.slice_to (cycle_target st app w db) (app_limit st app).
Proof.
  intros He. split; [|split].
  - apply sublist_filter.
  - intros i. unfold cycle_target. rewrite list_elem_of_filter. tauto.
  - by apply run_cycle_posts.
Qed.

(** C7.  In a cycle whose ledger read succeeds, no id of a search
    command is an id of the ledger as the filter step found it. *)
Theorem dispatched_disjoint_from_ledger st app w db :
  ids_read_ok w = true ->
  forall i, i ∈ posted_ids (run_cycle st app w db).2 ->
            i ∉ (table app (check_safety_net st app w db).1).*1.
Proof.
  intros Hread i Hi.
  destruct (app_enabled st app) eqn:He.
  - rewrite (run_cycle_posts _ _ _ _ He) in Hi.
    apply elem_of_slice_to in Hi.
    unfold cycle_target in Hi. apply list_elem_of_filter in Hi as [Hi _].
    unfold cycle_searched, get_searched_ids in Hi. rewrite Hread in Hi.
    by rewrite elem_of_list_to_set in Hi.
  - rewrite (run_cycle_disabled _ _ _ _ He) in Hi. by apply elem_of_nil in Hi.
Qed.

(** C9 (as amended).  With a batch limit that is not negative, a cycle
    issues at most [limit] search commands. *)
Theorem batch_bound st app w db :
  0 <= app_limit st app ->
  Z.of_nat (length (posted_ids (run_cycle st app w db).2)) <= app_limit st app.
Proof.
  intros Hlimit.
  destruct (app_enabled st app) eqn:He.
  - rewrite (run_cycle_posts _ _ _ _ He). by apply slice_to_length.
  - by rewrite (run_cycle_disabled _ _ _ _ He).
Qed.

(** C1 (as amended).  In a cycle of an enabled category whose candidate
    list is a subset of the loaded searched set, no search command is
    issued; when the candidate list is not empty the ledger of the
    category is wiped (it is empty afterwards once the DELETE went
    through), and when the candidate list is empty the cycle ends after
    the fetch and leaves the ledger as the safety net left it. *)
Theorem completion_reset st app w db :
  app_enabled st app = true ->
  (forall i, i ∈ cycle_candidates st app w -> i ∈ cycle_searched st app w db) ->
  posted_ids (run_cycle st app w db).2 = []
  /\ (cycle_candidates st app w <> [] ->
      EvWipe app ∈ (run_cycle st app w db).2
      /\ (reset_wipe_ok w = true -> table app (run_cycle st app w db).1 = []))
  /\ (cycle_candidates st app w = [] ->
      (run_cycle st app w db).1 = (check_safety_net st app w db).1).
Proof.
  intros He Hsub.
  pose proof (filter_all_searched _ _ Hsub) as Hnil.
  split; [|split].
  - rewrite (run_cycle_posts _ _ _ _ He). unfold cycle_target.
    by rewrite Hnil, slice_to_nil.
  - intros Hne. rewrite (run_cycle_enabled _ _ _ _ He). simpl.
    unfold cycle_candidates, cycle_searched in *.
    destruct (get_combined_content app w _ _) as [cands tr2]. simpl in *.
    destruct cands as [|c cs]; [done|].
    unfold dispatch. rewrite Hnil.
    assert (Hpos : (0 <? size (get_searched_ids app (ids_read_ok w)
                      (check_safety_net st app w db).1))%nat = true).
    { apply Nat.ltb_lt.
      assert (Hc : c ∈ get_searched_ids app (ids_read_ok w)
                      (check_safety_net st app w db).1)
        by (apply Hsub; by left).
      destruct (size _) eqn:Hsz; [|lia].
      apply size_empty_iff in Hsz. by apply Hsz in Hc. }
    rewrite Hpos. simpl. split.
    + rewrite !elem_of_app. right. right. by left.
    + intros ->. apply table_set_table.
  - intros Hempty. rewrite (run_cycle_enabled _ _ _ _ He). simpl.
    unfold cycle_candidates in Hempty. by rewrite Hempty.
Qed.

(** *** The safety net *)

Lemma oldest_timestamp_le rows oldest :
  oldest_timestamp rows = Some oldest -> forall r, r ∈ rows -> oldest <= r.2.
Proof.
  destruct rows as [|r0 rs]; [done|]. simpl. intros [= <-].
  assert (Hrs : forall r, r ∈ rs -> foldr Z.min r0.2 (rs.*2) <= r.2).
  { induction rs as [|r1 rs IH]; intros r Hr; [by apply elem_of_nil in Hr|].
    change ((r1 :: rs).*2) with (r1.2 :: rs.*2). simpl foldr.
    apply elem_of_cons in Hr as [->|Hr]; [apply Z.le_min_l|].
    etrans; [apply Z.le_min_r | by apply IH]. }
  intros r [->|Hr]%elem_of_cons; [|by apply Hrs].
  clear Hrs. induction rs as [|r1 rs IH]; [done|].
  change ((r1 :: rs).*2) with (r1.2 :: rs.*2). simpl foldr.
  etrans; [apply Z.le_min_r | exact IH].
Qed.

Lemma oldest_timestamp_elem rows oldest :
  oldest_timestamp rows = Some oldest -> oldest ∈ rows.*2.
Proof.
  destruct rows as [|r0 rs]; [done|]. simpl. intros [= <-].
  induction rs as [|r1 rs IH]; [by left|].
  change ((r0 :: r1 :: rs).*2) with (r0.2 :: r1.2 :: rs.*2).
  change ((r0 :: rs).*2) with (r0.2 :: rs.*2) in IH.
  change ((r1 :: rs).*2) with (r1.2 :: rs.*2). simpl foldr.
  destruct (Z.min_spec r1.2 (foldr Z.min r0.2 (rs.*2))) as [[_ ->]|[_ ->]].
  - right. by left.
  - apply elem_of_cons in IH as [IH|IH].
    + rewrite IH. by left.
    + right. by right.
Qed.

Lemma check_safety_net_young st app w db oldest :
  oldest_timestamp (table app db) = Some oldest ->
  now w - oldest <= MAX_CYCLE_DAYS st * day ->
  check_safety_net st app w db = (db, []).
Proof.
  intros Ho Hage. unfold check_safety_net, Py.timedelta_days. rewrite Ho.
  destruct (oldest_read_ok w); [|done].
  destruct (Z.abs _ <=? _); [|done].
  unfold day in Hage.
  destruct (Z.gtb_spec (now w - oldest) (MAX_CYCLE_DAYS st * 86400000000));
    [lia | done].
Qed.

Lemma check_safety_net_empty st app w db :
  table app db = [] -> check_safety_net st app w db = (db, []).
Proof.
  intros Ht. unfold check_safety_net. rewrite Ht. simpl.
  by destruct (oldest_read_ok w).
Qed.

Lemma check_safety_net_old st app w db oldest :
  Z.abs (MAX_CYCLE_DAYS st) <= 999999999 ->
  oldest_read_ok w = true ->
  oldest_timestamp (table app db) = Some oldest ->
  now w - oldest > MAX_CYCLE_DAYS st * day ->
  check_safety_net st app w db =
  (wipe_table app (safety_wipe_ok w) db, [EvWipe app]).
Proof.
  intros Hdays Hread Ho Hage.
  unfold check_safety_net, Py.timedelta_days. rewrite Hread, Ho.
  destruct (Z.leb_spec (Z.abs (MAX_CYCLE_DAYS st)) 999999999); [|lia].
  unfold day in Hage.
  destruct (Z.gtb_spec (now w - oldest) (MAX_CYCLE_DAYS st * 86400000000));
    [done | lia].
Qed.

Lemma get_combined_content_first_get app w limit cutoff_limit :
  exists q tr, (get_combined_content app w limit cutoff_limit).2 = EvGet app q :: tr.
Proof.
  unfold get_combined_content.
  repeat (case_match; simpl; eauto).
Qed.

(** *** Idempotent insert *)

Lemma add_searched_id_failed app i t db : add_searched_id app i t false db = db.
Proof. done. Qed.

Lemma add_searched_id_present app i t ok db :
  i ∈ (table app db).*1 -> add_searched_id app i t ok db = db.
Proof.
  intros Hi. unfold add_searched_id. destruct ok; [|done].
  rewrite insert_or_ignore_present by done. apply set_table_table.
Qed.

(** C8.  On a ledger that keeps its primary key, a second insert of an
    id changes nothing, an insert of an id that is already there changes
    nothing, and after the two inserts the ledger has exactly one entry
    for the id, whose timestamp is the one recorded first: the one the
    ledger had, or else the one of the first insert. *)
Theorem add_searched_id_idempotent app i t1 t2 db :
  primary_key (table app db) ->
  let db1 := add_searched_id app i t1 true db in
  let db2 := add_searched_id app i t2 true db1 in
  db2 = db1
  /\ (i ∈ (table app db).*1 -> db1 = db)
  /\ length (entries_of i (table app db2)) = 1%nat
  /\ timestamp_of i (table app db2) =
     Some (default t1 (timestamp_of i (table app db)))
  /\ primary_key (table app db2).
Proof.
  intros Hpk db1 db2.
  assert (Hin1 : i ∈ (table app db1).*1).
  { unfold db1, add_searched_id. rewrite table_set_table.
    apply has_id_true, has_id_insert_or_ignore. }
  assert (Hpk1 : primary_key (table app db1)).
  { unfold db1, add_searched_id. rewrite table_set_table.
    by apply insert_or_ignore_primary_key. }
  assert (H21 : db2 = db1) by (by apply add_searched_id_present).
  split; [done|]. split; [by apply add_searched_id_present|].
  rewrite H21. split; [by apply entries_of_primary_key|]. split; [|done].
  unfold db1, add_searched_id. rewrite table_set_table.
  destruct (decide (i ∈ (table app db).*1)) as [Hi|Hi].
  - rewrite insert_or_ignore_present by done.
    by destruct (timestamp_of_present _ _ Hi) as [t ->].
  - rewrite timestamp_of_insert_absent by done.
    by rewrite timestamp_of_absent.
Qed.

(** *** The cutoff limit *)

Lemma trigger_search_delay st st' app w item_ids db :
  REQUEST_DELAY_SECONDS st = REQUEST_DELAY_SECONDS st' ->
  trigger_search st app w item_ids db = trigger_search st' app w item_ids db.
Proof.
  intros Hd. revert db.
  induction item_ids as [|i rest IH]; intros db; simpl; [done|].
  rewrite Hd. destruct (post_ok w i); by rewrite IH.
Qed.

Lemma dispatch_settings st st' app w all_candidates db :
  REQUEST_DELAY_SECONDS st = REQUEST_DELAY_SECONDS st' ->
  app_limit st app = app_limit st' app ->
  dispatch st app w all_candidates db = dispatch st' app w all_candidates db.
Proof.
  intros Hd Hl. unfold dispatch. rewrite Hl.
  destruct all_candidates; [done|].
  destruct (filter _ _); [done|]. by apply trigger_search_delay.
Qed.

Lemma check_safety_net_settings st st' app w db :
  MAX_CYCLE_DAYS st = MAX_CYCLE_DAYS st' ->
  check_safety_net st app w db = check_safety_net st' app w db.
Proof. intros Hm. unfold check_safety_net. by rewrite Hm. Qed.

Lemma get_combined_content_flag app w limit limit' c1 c2 :
  (0 < c1 <-> 0 < c2) ->
  get_combined_content app w limit c1 = get_combined_content app w limit' c2.
Proof.
  intros Hc. unfold get_combined_content.
  assert (Hb : (c1 >? 0) = (c2 >? 0)).
  { destruct (Z.gtb_spec c1 0), (Z.gtb_spec c2 0); try done; lia. }
  by rewrite Hb.
Qed.

(** C10 (as amended).  Two cycles that differ in nothing but the cutoff
    limit of the category, both limits above zero or both not above
    zero, end in the same database after the same trace: the size of a
    positive cutoff limit bounds nothing. *)
Theorem cutoff_limit_is_a_flag st app w db c1 c2 :
  (0 < c1 <-> 0 < c2) ->
  run_cycle (with_cutoff_limit st app c1) app w db =
  run_cycle (with_cutoff_limit st app c2) app w db.
Proof.
  intros Hc.
  assert (He : forall c, app_enabled (with_cutoff_limit st app c) app =
                         app_enabled st app) by (by destruct app).
  destruct (app_enabled st app) eqn:Hen.
  - rewrite !run_cycle_enabled by (by rewrite He). cbv zeta.
    rewrite (check_safety_net_settings _ (with_cutoff_limit st app c2))
      by (by destruct app).
    rewrite (get_combined_content_flag app w _
               (app_limit (with_cutoff_limit st app c2) app) _
               (app_cutoff_limit (with_cutoff_limit st app c2) app))
      by (by destruct app).
    rewrite (dispatch_settings _ (with_cutoff_limit st app c2))
      by (by destruct app).
    done.
  - by rewrite !run_cycle_disabled by (by rewrite He).
Qed.

(** *** The scheduler interval *)

(** C5 (as amended).  The scheduler interval is read from the
    environment key [RUN_EVERY] and is 15 when that key is unset; the
    key [RUN_EVERY_MINUTES] is not read at all. *)
Theorem run_every_key env st :
  load_settings env = Some st ->
  Py.int (getenv env "RUN_EVERY" "15") = Some (RUN_EVERY_MINUTES st)
  /\ (env !! "RUN_EVERY" = None -> RUN_EVERY_MINUTES st = 15)
  /\ (forall v, load_settings (<["RUN_EVERY_MINUTES" := v]> env) = Some st).
Proof.
  intros Hload.
  assert (Hkey : Py.int (getenv env "RUN_EVERY" "15") = Some (RUN_EVERY_MINUTES st)).
  { unfold load_settings in Hload.
    destruct (Py.int (getenv env "REQUEST_DELAY_SECONDS" "2")); [|done].
    destruct (Py.int (getenv env "MAX_CYCLE_DAYS" "30")); [|done].
    destruct (Py.int (getenv env "RUN_EVERY" "15")); [|done].
    destruct (Py.int (getenv env "SONARR_LIMIT" "10")); [|done].
    destruct (Py.int (getenv env "SONARR_CUTOFF_LIMIT" "0")); [|done].
    destruct (Py.int (getenv env "RADARR_LIMIT" "10")); [|done].
    destruct (Py.int (getenv env "RADARR_CUTOFF_LIMIT" "0")); [|done].
    simpl in Hload. by injection Hload as <-. }
  split; [done|]. split.
  - intros Hunset. unfold getenv in Hkey. rewrite Hunset in Hkey.
    by injection Hkey as <-.
  - intros v. rewrite <- Hload. unfold load_settings, getenv.
    by rewrite !lookup_insert_ne.
Qed.

(** *** The candidate fetch under failures *)

Lemma fetch_ids_from_endpoint_failed : fetch_ids_from_endpoint RespError = [].
Proof. done. Qed.

Lemma fetch_ids_from_endpoint_records ids :
  fetch_ids_from_endpoint (records ids) = ids.
Proof.
  unfold records. simpl.
  assert (H : mapM id (Some <$> ids) = Some ids); [|by rewrite H].
  apply mapM_Some. induction ids; constructor; done.
Qed.

(** Sonarr: whichever of the two sub-queries fails, the ids of the
    other one are the candidates. *)
Lemma sonarr_missing_failure w limit cutoff_limit i :
  missing_resp w = RespError -> 0 < cutoff_limit ->
  i ∈ (get_combined_content sonarr w limit cutoff_limit).1 <->
  i ∈ fetch_ids_from_endpoint (cutoff_resp w).
Proof.
  intros Hm Hc. unfold get_combined_content. rewrite Hm.
  destruct (Z.gtb_spec cutoff_limit 0); [|lia]. simpl.
  by rewrite elem_of_set_to_list.
Qed.

Lemma sonarr_cutoff_failure w limit cutoff_limit i :
  cutoff_resp w = RespError ->
  i ∈ (get_combined_content sonarr w limit cutoff_limit).1 <->
  i ∈ fetch_ids_from_endpoint (missing_resp w).
Proof.
  intros Hc. unfold get_combined_content. rewrite Hc.
  destruct (cutoff_limit >? 0); simpl; rewrite elem_of_set_to_list; [|done].
  by rewrite app_nil_r.
Qed.

(** Radarr: a failure of the cutoff sub-query leaves the missing ids. *)
Lemma radarr_cutoff_failure w limit cutoff_limit movies missing_ids i :
  movies_resp w = Movies movies ->
  radarr_missing movies = Some missing_ids ->
  cutoff_resp w = RespError ->
  i ∈ (get_combined_content radarr w limit cutoff_limit).1 <-> i ∈ missing_ids.
Proof.
  intros Hm Hr Hc. unfold get_combined_content. rewrite Hm, Hr, Hc.
  destruct (cutoff_limit >? 0); simpl; rewrite elem_of_set_to_list; [|done].
  by rewrite app_nil_r.
Qed.

(** Radarr: a failure of the catalogue request ends the fetch; the
    cutoff endpoint is not asked. *)
Lemma radarr_movies_failure w limit cutoff_limit :
  movies_resp w = MoviesError ->
  (forall i, i ∉ (get_combined_content radarr w limit cutoff_limit).1)
  /\ (get_combined_content radarr w limit cutoff_limit).2 = [EvGet radarr QMovies].
Proof.
  intros Hm. unfold get_combined_content. rewrite Hm. simpl. split; [|done].
  intros i. rewrite elem_of_set_to_list. apply not_elem_of_nil.
Qed.

(** *** Pacing of the search trigger *)

Lemma trigger_search_success st app w i rest db :
  post_ok w i = true ->
  0 < REQUEST_DELAY_SECONDS st ->
  (trigger_search st app w (i :: rest) db).2 =
  EvPost app i true :: EvInsert app i :: EvSleep (REQUEST_DELAY_SECONDS st) ::
  (trigger_search st app w rest
     (add_searched_id app i (insert_time w i) (insert_ok w i) db)).2.
Proof.
  intros Hp Hd. simpl. rewrite Hp.
  destruct (Z.gtb_spec (REQUEST_DELAY_SECONDS st) 0); [|lia].
  by destruct (trigger_search st app w rest _).
Qed.

(** After a POST that failed the next id follows at once. *)
Lemma trigger_search_failure st app w i rest db :
  post_ok w i = false ->
  trigger_search st app w (i :: rest) db =
  ((trigger_search st app w rest db).1,
   EvPost app i false :: (trigger_search st app w rest db).2).
Proof.
  intros Hp. simpl. rewrite Hp.
  by destruct (trigger_search st app w rest db).
Qed.

Lemma trigger_search_no_delay st app w item_ids db d :
  REQUEST_DELAY_SECONDS st <= 0 ->
  EvSleep d ∉ (trigger_search st app w item_ids db).2.
Proof.
  intros Hd. revert db.
  induction item_ids as [|i rest IH]; intros db; simpl; [apply not_elem_of_nil|].
  destruct (Z.gtb_spec (REQUEST_DELAY_SECONDS st) 0); [lia|].
  destruct (post_ok w i).
  - specialize (IH (add_searched_id app i (insert_time w i) (insert_ok w i) db)).
    destruct (trigger_search st app w rest _) as [db2 tr]. simpl in *.
    rewrite !not_elem_of_cons. done.
  - specialize (IH db).
    destruct (trigger_search st app w rest db) as [db2 tr]. simpl in *.
    rewrite !not_elem_of_cons. done.
Qed.

(** *** The primary key is kept *)

Lemma wipe_table_primary_key app app' ok db :
  primary_key (table app' db) -> primary_key (table app' (wipe_table app ok db)).
Proof.
  unfold wipe_table. destruct ok; [|done].
  destruct (decide (app = app')) as [->|Hne].
  - rewrite table_set_table. intros _. apply NoDup_nil_2.
  - by rewrite table_set_table_ne.
Qed.

Lemma add_searched_id_primary_key app app' i t ok db :
  primary_key (table app' db) ->
  primary_key (table app' (add_searched_id app i t ok db)).
Proof.
  unfold add_searched_id. destruct ok; [|done].
  destruct (decide (app = app')) as [->|Hne].
  - rewrite table_set_table. apply insert_or_ignore_primary_key.
  - by rewrite table_set_table_ne.
Qed.

Lemma trigger_search_primary_key st app app' w item_ids db :
  primary_key (table app' db) ->
  primary_key (table app' (trigger_search st app w item_ids db).1).
Proof.
  revert db. induction item_ids as [|i rest IH]; intros db Hpk; simpl; [done|].
  destruct (post_ok w i).
  - specialize (IH (add_searched_id app i (insert_time w i) (insert_ok w i) db)
                  (add_searched_id_primary_key _ _ _ _ _ _ Hpk)).
    by destruct (trigger_search st app w rest _).
  - specialize (IH db Hpk). by destruct (trigger_search st app w rest db).
Qed.

Lemma run_cycle_primary_key st app app' w db :
  primary_key (table app' db) ->
  primary_key (table app' (run_cycle st app w db).1).
Proof.
  intros Hpk. destruct (app_enabled st app) eqn:He.
  - rewrite (run_cycle_enabled _ _ _ _ He). simpl.
    assert (H1 : primary_key (table app' (check_safety_net st app w db).1)).
    { unfold check_safety_net.
      repeat (case_match; simpl; try done).
      by apply wipe_table_primary_key. }
    revert H1. generalize (check_safety_net st app w db).1 as db1. intros db1 H1.
    unfold dispatch.
    destruct (get_combined_content app w _ _).1; [done|].
    destruct (filter _ _).
    + destruct (0 <? size _)%nat; [|done]. by apply wipe_table_primary_key.
    + by apply trigger_search_primary_key.
  - by rewrite (run_cycle_disabled _ _ _ _ He).
Qed.

(** The candidate list has no duplicates. *)
Lemma get_combined_content_NoDup app w limit cutoff_limit :
  NoDup (get_combined_content app w limit cutoff_limit).1.
Proof.
  unfold get_combined_content.
  repeat (case_match; simpl; try apply set_to_list_NoDup).
Qed.

(** No id is searched twice in one cycle. *)
Lemma run_cycle_posts_NoDup st app w db :
  NoDup (posted_ids (run_cycle st app w db).2).
Proof.
  destruct (app_enabled st app) eqn:He.
  - rewrite (run_cycle_posts _ _ _ _ He).
    assert (Hsub : Py.slice_to (cycle_target st app w db) (app_limit st app)
                     `sublist_of` cycle_target st app w db).
    { unfold Py.slice_to. destruct (0 <=? app_limit st app); apply sublist_take. }
    eapply sublist_NoDup; [|exact Hsub].
    apply NoDup_filter, get_combined_content_NoDup.
  - rewrite (run_cycle_disabled _ _ _ _ He). apply NoDup_nil_2.
Qed.

(** ** Further properties of the code *)

(** *** The search trigger *)

Lemma elem_of_add_searched_id app i t ok db j :
  j ∈ (table app (add_searched_id app i t ok db)).*1 <->
  j ∈ (table app db).*1 \/ (ok = true /\ j = i).
Proof.
  unfold add_searched_id. destruct ok.
  - rewrite table_set_table. unfold insert_or_ignore.
    destruct (has_id i (table app db)) eqn:Hi.
    + apply has_id_true in Hi. split; [by left|].
      intros [?|[_ ->]]; done.
    + rewrite fmap_app, elem_of_app. simpl. rewrite list_elem_of_singleton.
      split; (intros [?|?]; [by left | right]); [done | tauto].
  - split; [by left|]. intros [?|[? _]]; done.
Qed.

Lemma add_searched_id_rows app i t ok db r :
  r ∈ table app (add_searched_id app i t ok db) <->
  r ∈ table app db
  \/ (ok = true /\ has_id i (table app db) = false /\ r = (i, t)).
Proof.
  unfold add_searched_id. destruct ok.
  - rewrite table_set_table. unfold insert_or_ignore.
    destruct (has_id i (table app db)).
    + split; [by left|]. intros [?|(_ & ? & _)]; done.
    + rewrite elem_of_app, list_elem_of_singleton.
      split; (intros [?|?]; [by left | right]); [done | tauto].
  - split; [by left|]. intros [?|(? & _)]; done.
Qed.

Lemma timestamp_of_add_searched_id app i t ok db j u :
  timestamp_of j (table app db) = Some u ->
  timestamp_of j (table app (add_searched_id app i t ok db)) = Some u.
Proof.
  intros Hj. unfold add_searched_id. destruct ok; [|done].
  rewrite table_set_table. unfold insert_or_ignore.
  destruct (has_id i (table app db)); [done|].
  rewrite timestamp_of_app_present; [done|].
  destruct (decide (j ∈ (table app db).*1)) as [|Hn]; [done|].
  by rewrite (timestamp_of_absent _ _ Hn) in Hj.
Qed.

Lemma add_searched_id_other app app' i t ok db :
  app <> app' -> table app' (add_searched_id app i t ok db) = table app' db.
Proof.
  intros Hne. unfold add_searched_id. destruct ok; [|done].
  by apply table_set_table_ne.
Qed.

Lemma wipe_table_other app app' ok db :
  app <> app' -> table app' (wipe_table app ok db) = table app' db.
Proof.
  intros Hne. unfold wipe_table. destruct ok; [|done].
  by apply table_set_table_ne.
Qed.

Lemma trigger_search_other st app app' w item_ids db :
  app <> app' -> table app' (trigger_search st app w item_ids db).1 = table app' db.
Proof.
  intros Hne. revert db.
  induction item_ids as [|i rest IH]; intros db; simpl; [done|].
  destruct (post_ok w i).
  - specialize (IH (add_searched_id app i (insert_time w i) (insert_ok w i) db)).
    destruct (trigger_search st app w rest _) as [db2 tr]. simpl in *.
    rewrite IH. by apply add_searched_id_other.
  - specialize (IH db). by destruct (trigger_search st app w rest db).
Qed.

(** X4.  Every id of the list gets its search command, in the order of
    the list and with the outcome the remote service gives it: a command
    that fails does not keep the later ones from being sent. *)
Theorem trigger_search_outcomes st app w item_ids db :
  post_outcomes (trigger_search st app w item_ids db).2 =
  (fun i => (i, post_ok w i)) <$> item_ids.
Proof.
  revert db. induction item_ids as [|i rest IH]; intros db; simpl; [done|].
  destruct (post_ok w i) eqn:Hp.
  - specialize (IH (add_searched_id app i (insert_time w i) (insert_ok w i) db)).
    destruct (trigger_search st app w rest _) as [db2 tr]. simpl in *.
    unfold post_outcomes in *. rewrite omap_app, IH.
    by destruct (REQUEST_DELAY_SECONDS st >? 0).
  - specialize (IH db).
    destruct (trigger_search st app w rest db) as [db2 tr]. simpl in *.
    unfold post_outcomes in *. simpl. by rewrite IH.
Qed.

Lemma elem_of_trigger_search st app w item_ids db j :
  j ∈ (table app (trigger_search st app w item_ids db).1).*1 <->
  j ∈ (table app db).*1
  \/ (j ∈ item_ids /\ post_ok w j = true /\ insert_ok w j = true).
Proof.
  revert db. induction item_ids as [|i rest IH]; intros db; simpl.
  - split; [by left|]. intros [?|[?%elem_of_nil _]]; done.
  - destruct (post_ok w i) eqn:Hp.
    + specialize (IH (add_searched_id app i (insert_time w i) (insert_ok w i) db)).
      destruct (trigger_search st app w rest _) as [db2 tr]. simpl in *.
      rewrite IH, elem_of_add_searched_id, elem_of_cons. split.
      * intros [[?|[Hok ->]]|(?&?&?)]; [by left | right | right]; tauto.
      * intros [?|([->|?]&?&?)]; [by left; left | left; right | right]; tauto.
    + specialize (IH db).
      destruct (trigger_search st app w rest db) as [db2 tr]. simpl in *.
      rewrite IH, elem_of_cons. split.
      * intros [?|(?&?&?)]; [by left | right]; tauto.
      * intros [?|([->|?]&?&?)]; [by left | congruence | right]; tauto.
Qed.

(** X5.  After the search trigger the ledger holds the ids it held before
    and the ids of the list whose command and whose insert both went
    through, and no other id. *)
Theorem trigger_search_ledger_ids st app w item_ids db j :
  j ∈ (table app (trigger_search st app w item_ids db).1).*1 <->
  j ∈ (table app db).*1
  \/ (j ∈ item_ids /\ post_ok w j = true /\ insert_ok w j = true).
Proof. apply elem_of_trigger_search. Qed.

Lemma trigger_search_keeps_row st app w item_ids db r :
  r ∈ table app db -> r ∈ table app (trigger_search st app w item_ids db).1.
Proof.
  revert db. induction item_ids as [|i rest IH]; intros db Hr; simpl; [done|].
  destruct (post_ok w i).
  - specialize (IH (add_searched_id app i (insert_time w i) (insert_ok w i) db)).
    destruct (trigger_search st app w rest _) as [db2 tr]. simpl in *.
    apply IH, add_searched_id_rows. by left.
  - specialize (IH db Hr). by destruct (trigger_search st app w rest db).
Qed.

Lemma trigger_search_keeps_timestamp st app w item_ids db j u :
  timestamp_of j (table app db) = Some u ->
  timestamp_of j (table app (trigger_search st app w item_ids db).1) = Some u.
Proof.
  revert db. induction item_ids as [|i rest IH]; intros db Hj; simpl; [done|].
  destruct (post_ok w i).
  - specialize (IH (add_searched_id app i (insert_time w i) (insert_ok w i) db)).
    destruct (trigger_search st app w rest _) as [db2 tr]. simpl in *.
    by apply IH, timestamp_of_add_searched_id.
  - specialize (IH db Hj). by destruct (trigger_search st app w rest db).
Qed.

(** Where a row of the ledger comes from: it was there, or it is the row
    of an id of the list whose command and insert went through, with the
    timestamp of that insert. *)
Lemma trigger_search_rows st app w item_ids db r :
  r ∈ table app (trigger_search st app w item_ids db).1 ->
  r ∈ table app db
  \/ (r.1 ∈ item_ids /\ post_ok w r.1 = true /\ insert_ok w r.1 = true
      /\ r.2 = insert_time w r.1).
Proof.
  revert db. induction item_ids as [|i rest IH]; intros db; simpl; [by left|].
  destruct (post_ok w i) eqn:Hp.
  - specialize (IH (add_searched_id app i (insert_time w i) (insert_ok w i) db)).
    destruct (trigger_search st app w rest _) as [db2 tr]. simpl in *.
    intros [Hr|(? & ? & ? & ?)]%IH.
    + apply add_searched_id_rows in Hr as [?|(Hok & _ & ->)]; [by left|].
      right. simpl. repeat split; try done. by left.
    + right. repeat split; try done. by right.
  - specialize (IH db).
    destruct (trigger_search st app w rest db) as [db2 tr]. simpl in *.
    intros [?|(? & ? & ? & ?)]%IH; [by left|].
    right. repeat split; try done. by right.
Qed.

(** X6.  The search trigger removes and changes no row of the ledger:
    every row it found is still there afterwards, and an id that had a
    timestamp keeps it, whatever fails later in the list. *)
Theorem trigger_search_keeps_rows st app w item_ids db i t :
  timestamp_of i (table app db) = Some t ->
  (forall r, r ∈ table app db ->
             r ∈ table app (trigger_search st app w item_ids db).1)
  /\ timestamp_of i (table app (trigger_search st app w item_ids db).1) = Some t.
Proof.
  intros Ht. split.
  - intros r. apply trigger_search_keeps_row.
  - by apply trigger_search_keeps_timestamp.
Qed.


(** *** One category at a time *)

Lemma check_safety_net_cases st app w db :
  check_safety_net st app w db = (db, [])
  \/ check_safety_net st app w db =
     (wipe_table app (safety_wipe_ok w) db, [EvWipe app]).
Proof.
  unfold check_safety_net.
  repeat (case_match; try (by left); try (by right)).
Qed.

Lemma dispatch_cases st app w all_candidates db :
  dispatch st app w all_candidates db = (db, [])
  \/ dispatch st app w all_candidates db =
     (wipe_table app (reset_wipe_ok w) db, [EvWipe app])
  \/ dispatch st app w all_candidates db =
     trigger_search st app w
       (Py.slice_to
          (filter (fun i => i ∉ get_searched_ids app (ids_read_ok w) db)
             all_candidates)
          (app_limit st app)) db.
Proof.
  unfold dispatch. destruct all_candidates as [|c cs]; [by left|].
  destruct (filter _ (c :: cs)) as [|t ts].
  - destruct (0 <? size _)%nat; [right; by left | by left].
  - right. by right.
Qed.

Lemma trigger_search_no_wipe st app app' w item_ids db :
  EvWipe app' ∉ (trigger_search st app w item_ids db).2.
Proof.
  revert db. induction item_ids as [|i rest IH]; intros db; simpl;
    [apply not_elem_of_nil|].
  destruct (post_ok w i).
  - specialize (IH (add_searched_id app i (insert_time w i) (insert_ok w i) db)).
    destruct (trigger_search st app w rest _) as [db2 tr]. simpl in *.
    rewrite !not_elem_of_cons, not_elem_of_app. repeat split; try done.
    destruct (REQUEST_DELAY_SECONDS st >? 0);
      [rewrite not_elem_of_cons; split; [done|] |]; apply not_elem_of_nil.
  - specialize (IH db).
    destruct (trigger_search st app w rest db) as [db2 tr]. simpl in *.
    rewrite not_elem_of_cons. done.
Qed.

Lemma table_wipe_table app ok db :
  table app (wipe_table app ok db) = if ok then [] else table app db.
Proof. unfold wipe_table. destruct ok; [apply table_set_table | done]. Qed.

Lemma run_cycle_other st app app' w db :
  app <> app' -> table app' (run_cycle st app w db).1 = table app' db.
Proof.
  intros Hne. destruct (app_enabled st app) eqn:He;
    [|by rewrite (run_cycle_disabled _ _ _ _ He)].
  rewrite (run_cycle_enabled _ _ _ _ He). cbv zeta. simpl.
  assert (H1 : table app' (check_safety_net st app w db).1 = table app' db).
  { destruct (check_safety_net_cases st app w db) as [->| ->]; simpl; [done|].
    by apply wipe_table_other. }
  rewrite <- H1.
  destruct (dispatch_cases st app w
              (get_combined_content app w (app_limit st app)
                 (app_cutoff_limit st app)).1
              (check_safety_net st app w db).1) as [->|[->| ->]]; simpl.
  - done.
  - by apply wipe_table_other.
  - by apply trigger_search_other.
Qed.

(** X1.  A cycle of one category leaves the ledger of the other category
    as it is. *)
Theorem run_cycle_other_table st app app' w db :
  app <> app' -> table app' (run_cycle st app w db).1 = table app' db.
Proof. apply run_cycle_other. Qed.

(** X15.  Rows leave a ledger by a wipe only: after a cycle that called no
    wipe, every row the ledger had is still in it. *)
Theorem no_wipe_keeps_rows st app w db r :
  EvWipe app ∉ (run_cycle st app w db).2 ->
  r ∈ table app db ->
  r ∈ table app (run_cycle st app w db).1.
Proof.
  destruct (app_enabled st app) eqn:He;
    [|by rewrite (run_cycle_disabled _ _ _ _ He)].
  rewrite (run_cycle_enabled _ _ _ _ He). cbv zeta. simpl.
  rewrite !not_elem_of_app. intros (H1 & _ & H3) Hr.
  destruct (check_safety_net_cases st app w db) as [Hc|Hc]; rewrite Hc in *;
    simpl in *; [|by apply not_elem_of_cons in H1 as [? _]].
  destruct (dispatch_cases st app w
              (get_combined_content app w (app_limit st app)
                 (app_cutoff_limit st app)).1 db) as [Hd|[Hd|Hd]];
    rewrite Hd in *; simpl in *.
  - done.
  - by apply not_elem_of_cons in H3 as [? _].
  - by apply trigger_search_keeps_row.
Qed.

(** X20.  An id that is in the ledger after a cycle was in it before the
    cycle, or is the id of a search command of this cycle that went
    through and whose insert went through. *)
Theorem run_cycle_ledger_provenance st app w db j :
  j ∈ (table app (run_cycle st app w db).1).*1 ->
  j ∈ (table app db).*1
  \/ (j ∈ posted_ids (run_cycle st app w db).2
      /\ post_ok w j = true /\ insert_ok w j = true).
Proof.
  destruct (app_enabled st app) eqn:He;
    [|rewrite (run_cycle_disabled _ _ _ _ He); by left].
  rewrite (run_cycle_posts _ _ _ _ He).
  rewrite (run_cycle_enabled _ _ _ _ He). cbv zeta. simpl.
  assert (H1 : j ∈ (table app (check_safety_net st app w db).1).*1 ->
               j ∈ (table app db).*1).
  { destruct (check_safety_net_cases st app w db) as [->| ->]; simpl; [done|].
    rewrite table_wipe_table. destruct (safety_wipe_ok w); [|done].
    by intros ?%elem_of_nil. }
  unfold cycle_target, cycle_searched, cycle_candidates.
  destruct (dispatch_cases st app w
              (get_combined_content app w (app_limit st app)
                 (app_cutoff_limit st app)).1
              (check_safety_net st app w db).1) as [->|[->| ->]]; simpl.
  - intros Hj. left. by apply H1.
  - rewrite table_wipe_table. destruct (reset_wipe_ok w).
    + by intros ?%elem_of_nil.
    + intros Hj. left. by apply H1.
  - rewrite elem_of_trigger_search. intros [Hj|Hj]; [left; by apply H1 | by right].
Qed.

Lemma filter_none_searched (S : gset Z) (l : list Z) :
  S = ∅ -> filter (fun i => i ∉ S) l = l.
Proof.
  intros ->. induction l as [|x l IH]; [done|].
  rewrite filter_cons_True by apply not_elem_of_empty. by rewrite IH.
Qed.

(** X13.  When the read of the ledger fails, the searched set counts as
    empty: the cycle sends the first [limit] candidates to the search
    trigger whether or not the ledger holds them, and it does not reach
    the completion reset. *)
Theorem read_failure_searches_again st app w db :
  app_enabled st app = true ->
  ids_read_ok w = false ->
  run_cycle st app w db =
  (let r1 := check_safety_net st app w db in
   let r3 := trigger_search st app w
               (Py.slice_to (cycle_candidates st app w) (app_limit st app)) r1.1 in
   (r3.1, r1.2 ++ (get_combined_content app w (app_limit st app)
                     (app_cutoff_limit st app)).2 ++ r3.2)).
Proof.
  intros He Hread. rewrite (run_cycle_enabled _ _ _ _ He). cbv zeta.
  unfold cycle_candidates.
  assert (Hd : forall cands db1,
             dispatch st app w cands db1 =
             trigger_search st app w (Py.slice_to cands (app_limit st app)) db1);
    [|by rewrite Hd].
  intros cands db1. unfold dispatch.
  destruct cands as [|c cs]; [by rewrite slice_to_nil|].
  cbv zeta. rewrite filter_none_searched; [done|].
  unfold get_searched_ids. by rewrite Hread.
Qed.

(** X19.  With the SELECT of the safety net going through and
    [MAX_CYCLE_DAYS] in the range of [timedelta], the safety net calls the
    wipe exactly when some row of the ledger, be it a single one, is
    older than [MAX_CYCLE_DAYS] days. *)
Theorem safety_net_wipes_iff_old_entry st app w db :
  oldest_read_ok w = true ->
  Z.abs (MAX_CYCLE_DAYS st) <= 999999999 ->
  (check_safety_net st app w db).2 = [EvWipe app] <->
  exists r, r ∈ table app db /\ now w - r.2 > MAX_CYCLE_DAYS st * day.
Proof.
  intros Hread Hdays. split.
  - destruct (oldest_timestamp (table app db)) as [oldest|] eqn:Ho.
    + destruct (Z_gt_le_dec (now w - oldest) (MAX_CYCLE_DAYS st * day)) as [Hold|Hyoung].
      * intros _. apply oldest_timestamp_elem in Ho.
        apply list_elem_of_fmap in Ho as (r & -> & Hr). eauto.
      * by rewrite (check_safety_net_young _ _ _ _ _ Ho Hyoung).
    + destruct (table app db) eqn:Ht; [|done].
      by rewrite (check_safety_net_empty _ _ _ _ Ht).
  - intros (r & Hr & Hage).
    destruct (oldest_timestamp (table app db)) as [oldest|] eqn:Ho.
    + pose proof (oldest_timestamp_le _ _ Ho r Hr).
      rewrite (check_safety_net_old _ _ _ _ oldest Hdays Hread Ho); [done|lia].
    + destruct (table app db); [by apply elem_of_nil in Hr | done].
Qed.


(** *** The job *)

Lemma table_add_searched_id app i t ok db :
  table app (add_searched_id app i t ok db) =
  if ok then insert_or_ignore i t (table app db) else table app db.
Proof. unfold add_searched_id. destruct ok; [apply table_set_table | done]. Qed.

Lemma trigger_search_local st app w item_ids db db' :
  table app db = table app db' ->
  table app (trigger_search st app w item_ids db).1 =
  table app (trigger_search st app w item_ids db').1
  /\ (trigger_search st app w item_ids db).2 =
     (trigger_search st app w item_ids db').2.
Proof.
  revert db db'. induction item_ids as [|i rest IH]; intros db db' Ht; simpl;
    [done|].
  destruct (post_ok w i).
  - specialize (IH (add_searched_id app i (insert_time w i) (insert_ok w i) db)
                  (add_searched_id app i (insert_time w i) (insert_ok w i) db')).
    destruct (trigger_search st app w rest
                (add_searched_id app i (insert_time w i) (insert_ok w i) db)).
    destruct (trigger_search st app w rest
                (add_searched_id app i (insert_time w i) (insert_ok w i) db')).
    simpl in *. destruct IH as [-> ->]; [|done].
    by rewrite !table_add_searched_id, Ht.
  - specialize (IH db db' Ht).
    destruct (trigger_search st app w rest db),
             (trigger_search st app w rest db').
    simpl in *. by destruct IH as [-> ->].
Qed.

Lemma dispatch_local st app w all_candidates db db' :
  table app db = table app db' ->
  table app (dispatch st app w all_candidates db).1 =
  table app (dispatch st app w all_candidates db').1
  /\ (dispatch st app w all_candidates db).2 =
     (dispatch st app w all_candidates db').2.
Proof.
  intros Ht. unfold dispatch.
  destruct all_candidates as [|c cs]; [done|]. cbv zeta.
  assert (Hs : get_searched_ids app (ids_read_ok w) db =
               get_searched_ids app (ids_read_ok w) db')
    by (unfold get_searched_ids; by rewrite Ht).
  rewrite Hs. destruct (filter _ (c :: cs)) as [|t ts].
  - destruct (0 <? size _)%nat; [|done]. simpl.
    by rewrite !table_wipe_table, Ht.
  - by apply trigger_search_local.
Qed.

Lemma check_safety_net_local st app w db db' :
  table app db = table app db' ->
  table app (check_safety_net st app w db).1 =
  table app (check_safety_net st app w db').1
  /\ (check_safety_net st app w db).2 = (check_safety_net st app w db').2.
Proof.
  intros Ht. unfold check_safety_net. rewrite Ht.
  repeat (case_match; simpl; try done).
  by rewrite !table_wipe_table, Ht.
Qed.

Lemma run_cycle_local st app w db db' :
  table app db = table app db' ->
  table app (run_cycle st app w db).1 = table app (run_cycle st app w db').1
  /\ (run_cycle st app w db).2 = (run_cycle st app w db').2.
Proof.
  intros Ht. destruct (app_enabled st app) eqn:He.
  - rewrite !(run_cycle_enabled _ _ _ _ He). cbv zeta. simpl.
    destruct (check_safety_net_local st app w db db' Ht) as [H1 ->].
    destruct (dispatch_local st app w
                (get_combined_content app w (app_limit st app)
                   (app_cutoff_limit st app)).1 _ _ H1) as [-> ->].
    done.
  - by rewrite !(run_cycle_disabled _ _ _ _ He).
Qed.

Lemma job_cycles st w_sonarr w_radarr db :
  job st w_sonarr w_radarr db =
  ((run_cycle st radarr w_radarr (run_cycle st sonarr w_sonarr db).1).1,
   (run_cycle st sonarr w_sonarr db).2 ++
   (run_cycle st radarr w_radarr (run_cycle st sonarr w_sonarr db).1).2).
Proof.
  unfold job.
  assert (H1 : (if SONARR_ENABLED st then run_cycle st sonarr w_sonarr db
                else (db, [])) = run_cycle st sonarr w_sonarr db).
  { destruct (SONARR_ENABLED st) eqn:He; [done|].
    by rewrite run_cycle_disabled. }
  rewrite H1. destruct (run_cycle st sonarr w_sonarr db) as [db1 tr1].
  assert (H2 : (if RADARR_ENABLED st then run_cycle st radarr w_radarr db1
                else (db1, [])) = run_cycle st radarr w_radarr db1).
  { destruct (RADARR_ENABLED st) eqn:He; [done|].
    by rewrite run_cycle_disabled. }
  rewrite H2. simpl. by destruct (run_cycle st radarr w_radarr db1).
Qed.

(** X2.  The job treats the two categories apart: each ledger ends as the
    cycle of its own category alone would leave it on the database the job
    started from, and the trace of the job is the trace of that Sonarr
    cycle followed by the trace of that Radarr cycle. *)
Theorem job_by_category st w_sonarr w_radarr db :
  job st w_sonarr w_radarr db =
  ({| sonarr_searches := table sonarr (run_cycle st sonarr w_sonarr db).1;
      radarr_searches := table radarr (run_cycle st radarr w_radarr db).1 |},
   (run_cycle st sonarr w_sonarr db).2 ++ (run_cycle st radarr w_radarr db).2).
Proof.
  rewrite job_cycles.
  assert (Hr : table radarr (run_cycle st sonarr w_sonarr db).1 = table radarr db)
    by (by apply run_cycle_other).
  destruct (run_cycle_local st radarr w_radarr _ _ Hr) as [Ht ->].
  f_equal.
  pose proof (run_cycle_other st radarr sonarr w_radarr
                (run_cycle st sonarr w_sonarr db).1) as Hs.
  destruct (run_cycle st radarr w_radarr (run_cycle st sonarr w_sonarr db).1).1
    as [s r].
  simpl in *. rewrite Ht, Hs; done.
Qed.

(** X3.  A job started on ledgers that satisfy their primary key leaves
    ledgers that satisfy it. *)
Theorem job_primary_key st w_sonarr w_radarr db app :
  primary_key (sonarr_searches db) ->
  primary_key (radarr_searches db) ->
  primary_key (table app (job st w_sonarr w_radarr db).1).
Proof.
  intros Hs Hr. rewrite job_cycles. simpl.
  apply run_cycle_primary_key, run_cycle_primary_key. by destruct app.
Qed.


(** *** Progress of a cycle *)

Lemma filter_ext_elem {A} (P Q : A -> Prop) `{!forall x, Decision (P x)}
    `{!forall x, Decision (Q x)} (l : list A) :
  (forall x, x ∈ l -> P x <-> Q x) -> filter P l = filter Q l.
Proof.
  induction l as [|x l IH]; intros Hl; [done|].
  rewrite !filter_cons.
  assert (Hx : P x <-> Q x) by (apply Hl; by left).
  rewrite IH by (intros y Hy; apply Hl; by right).
  destruct (decide (P x)), (decide (Q x)); tauto || done.
Qed.

Lemma filter_not_in_take (l : list Z) n :
  NoDup l -> filter (fun i => i ∉ take n l) l = drop n l.
Proof.
  intros Hnd. revert n. induction Hnd as [|x l Hx Hnd IH]; intros n.
  - by destruct n.
  - destruct n as [|n]; simpl.
    + rewrite filter_cons_True by apply not_elem_of_nil. f_equal.
      exact (IH 0%nat).
    + rewrite filter_cons_False by (intros Hn; apply Hn; by left).
      rewrite <- IH. apply filter_ext_elem. intros y Hy.
      rewrite not_elem_of_cons. split; [tauto|].
      intros Hn. split; [|done]. intros ->. done.
Qed.

(** X14.  A cycle with a non-negative limit whose ledger read, commands
    and inserts all go through leaves pending exactly the candidates of
    its target that lie beyond the first [limit]: filtering the same
    candidates against the ledger it leaves gives the target without its
    first [limit] ids. *)
Theorem cycle_progress st app w db :
  app_enabled st app = true ->
  ids_read_ok w = true ->
  (forall i, i ∈ cycle_candidates st app w ->
             post_ok w i = true /\ insert_ok w i = true) ->
  0 <= app_limit st app ->
  cycle_target st app w db <> [] ->
  filter (fun i => i ∉ get_searched_ids app true (run_cycle st app w db).1)
    (cycle_candidates st app w) =
  drop (Z.to_nat (app_limit st app)) (cycle_target st app w db).
Proof.
  intros He Hread Hok Hlimit Hne.
  pose proof (get_combined_content_NoDup app w (app_limit st app)
                (app_cutoff_limit st app)) as Hnd.
  rewrite (run_cycle_enabled _ _ _ _ He). cbv zeta. simpl.
  unfold cycle_target, cycle_searched, cycle_candidates in *.
  rewrite Hread in *.
  set (C := (get_combined_content app w (app_limit st app)
               (app_cutoff_limit st app)).1) in *.
  set (db1 := (check_safety_net st app w db).1) in *.
  set (target := filter (fun i => i ∉ get_searched_ids app true db1) C) in *.
  assert (Hd : dispatch st app w C db1 =
               trigger_search st app w (Py.slice_to target (app_limit st app)) db1).
  { unfold dispatch. rewrite Hread. fold target.
    destruct C as [|c cs]; [done|]. by destruct target. }
  rewrite Hd.
  assert (Hslice : Py.slice_to target (app_limit st app) =
                   take (Z.to_nat (app_limit st app)) target).
  { unfold Py.slice_to. destruct (Z.leb_spec 0 (app_limit st app)); [done|lia]. }
  rewrite Hslice.
  rewrite <- (filter_not_in_take target) by (by apply NoDup_filter).
  clear Hd Hslice Hne. subst target. rewrite list_filter_filter.
  apply filter_ext_elem. intros i Hi.
  unfold get_searched_ids. rewrite !elem_of_list_to_set.
  rewrite elem_of_trigger_search. split.
  - intros Hn. split; [|tauto]. intros Ht. apply Hn. right.
    split; [|by apply Hok]. done.
  - intros [Hn1 Hn2] [?|[? _]]; done.
Qed.

(** *** The candidate fetch *)

Lemma mapM_id_Some (items : list (option Z)) ids :
  mapM id items = Some ids -> items = Some <$> ids.
Proof.
  rewrite mapM_Some. induction 1 as [|x y items ids Hxy _ IH]; [done|].
  simpl in *. by rewrite Hxy, IH.
Qed.

(** X8.  Whatever [fetch_ids_from_endpoint] returns other than the empty
    list comes from a body that is a dict with records or a bare list and
    in which every item has its id: the result is the ids of all the
    items, in their order.  One item without id empties the result. *)
Theorem fetch_ids_all_or_nothing resp :
  fetch_ids_from_endpoint resp <> [] ->
  exists items,
    (resp = RespJson (JRecords items) \/ resp = RespJson (JList items))
    /\ items = Some <$> fetch_ids_from_endpoint resp.
Proof.
  destruct resp as [|[items|items|]]; simpl; try done.
  - destruct (mapM id items) as [ids|] eqn:Hm; [|done]. intros _.
    exists items. split; [by left | by apply mapM_id_Some].
  - destruct (mapM id items) as [ids|] eqn:Hm; [|done]. intros _.
    exists items. split; [by right | by apply mapM_id_Some].
Qed.

(** X9.  For Sonarr the candidates are the ids of the missing query
    together with, when the cutoff limit is above zero, the ids of the
    cutoff query, each id once. *)
Theorem sonarr_candidates_union w limit cutoff_limit i :
  NoDup (get_combined_content sonarr w limit cutoff_limit).1
  /\ (i ∈ (get_combined_content sonarr w limit cutoff_limit).1 <->
      i ∈ fetch_ids_from_endpoint (missing_resp w)
      \/ (0 < cutoff_limit /\ i ∈ fetch_ids_from_endpoint (cutoff_resp w))).
Proof.
  split; [apply get_combined_content_NoDup|].
  unfold get_combined_content.
  destruct (Z.gtb_spec cutoff_limit 0); simpl; rewrite elem_of_set_to_list.
  - rewrite elem_of_app. split; (intros [?|?]; [by left | right]); [done|tauto].
  - split; [by left|]. intros [?|[? _]]; [done|lia].
Qed.

Lemma elem_of_mapM {A B} (f : A -> option B) (l : list A) (k : list B) y :
  mapM f l = Some k -> y ∈ k <-> exists x, x ∈ l /\ f x = Some y.
Proof.
  rewrite mapM_Some. induction 1 as [|x z l k Hxz _ IH].
  - split; [by intros ?%elem_of_nil | by intros (? & ?%elem_of_nil & _)].
  - rewrite elem_of_cons, IH. split.
    + intros [->|(x' & ? & ?)]; [exists x | exists x']; split; try done;
        [by left | by right].
    + intros (x' & [->|?]%elem_of_cons & Hf); [left; congruence | right; eauto].
Qed.

(** X10.  When Radarr's missing list is built, it holds exactly the ids of
    the movies of the catalogue that are monitored and have no file. *)
Theorem radarr_missing_selects movies ids i :
  radarr_missing movies = Some ids ->
  i ∈ ids <->
  exists m, m ∈ movies /\ movie_id m = Some i
            /\ hasFile m = false /\ monitored m = true.
Proof.
  intros Hm. unfold radarr_missing in Hm.
  rewrite (elem_of_mapM _ _ _ _ Hm). split.
  - intros (m & Hin & Hid). exists m.
    apply list_elem_of_In, filter_In in Hin as [Hin Hsel].
    apply andb_true_iff in Hsel as [Hf ?]. apply negb_true_iff in Hf.
    by rewrite list_elem_of_In.
  - intros (m & Hin & Hid & Hf & Hmon). exists m. split; [|done].
    apply list_elem_of_In, filter_In. rewrite <- list_elem_of_In.
    split; [done|]. by rewrite Hf, Hmon.
Qed.

Lemma mapM_None_elem {A B} (f : A -> option B) (l : list A) :
  mapM f l = None <-> exists x, x ∈ l /\ f x = None.
Proof.
  induction l as [|a l IH]; simpl.
  - split; [done | by intros (? & ?%elem_of_nil & _)].
  - destruct (f a) as [b|] eqn:Hfa; simpl.
    + destruct (mapM f l) as [k|] eqn:Hm; simpl.
      * split; [done|]. intros (x & [->|Hx]%elem_of_cons & Hfx); [congruence|].
        destruct IH as [_ IH]. by specialize (IH (ex_intro _ x (conj Hx Hfx))).
      * split; [|done]. intros _. destruct IH as [IH _].
        destruct (IH eq_refl) as (x & Hx & Hfx). exists x. split; [by right|done].
    + split; [|done]. intros _. exists a. split; [by left|done].
Qed.

(** X11.  Radarr's missing list fails to build exactly when a movie that
    is monitored and has no file lacks its id; a movie without id that
    has a file or is not monitored does no harm. *)
Theorem radarr_missing_fails_iff movies :
  radarr_missing movies = None <->
  exists m, m ∈ movies /\ movie_id m = None
            /\ hasFile m = false /\ monitored m = true.
Proof.
  unfold radarr_missing. rewrite mapM_None_elem. split.
  - intros (m & Hin & Hnone). exists m.
    apply list_elem_of_In, filter_In in Hin as [Hin Hsel].
    apply andb_true_iff in Hsel as [Hf ?]. apply negb_true_iff in Hf.
    by rewrite list_elem_of_In.
  - intros (m & Hin & Hid & Hf & Hmon). exists m. split; [|done].
    apply list_elem_of_In, filter_In. rewrite <- list_elem_of_In.
    split; [done|]. by rewrite Hf, Hmon.
Qed.

(** X12.  The cutoff endpoint is asked exactly when the cutoff limit is
    above zero and, for Radarr, the catalogue request and the missing list
    built from it both went through. *)
Theorem cutoff_endpoint_asked_iff app w limit cutoff_limit :
  EvGet app QCutoff ∈ (get_combined_content app w limit cutoff_limit).2 <->
  0 < cutoff_limit
  /\ (app = radarr ->
      exists movies ids,
        movies_resp w = Movies movies /\ radarr_missing movies = Some ids).
Proof.
  unfold get_combined_content. destruct app.
  - destruct (Z.gtb_spec cutoff_limit 0); simpl.
    + split; [done|]. intros _. right. by left.
    + split; [|lia]. by intros ?%list_elem_of_singleton.
  - destruct (movies_resp w) as [|movies]; simpl.
    + split; [by intros ?%list_elem_of_singleton|].
      intros [_ H]. by destruct (H eq_refl) as (? & ? & ? & _).
    + destruct (radarr_missing movies) as [ids|] eqn:Hm; simpl.
      * destruct (Z.gtb_spec cutoff_limit 0); simpl.
        -- split; [eauto|]. intros _. right. by left.
        -- split; [|lia]. by intros ?%list_elem_of_singleton.
      * split; [by intros ?%list_elem_of_singleton|].
        intros [_ H]. destruct (H eq_refl) as (? & ? & [= <-] & ?). congruence.
Qed.


(** *** Loading the settings *)

Lemma load_settings_Some env st :
  load_settings env = Some st ->
  Py.int (getenv env "REQUEST_DELAY_SECONDS" "2") = Some (REQUEST_DELAY_SECONDS st)
  /\ Py.int (getenv env "MAX_CYCLE_DAYS" "30") = Some (MAX_CYCLE_DAYS st)
  /\ Py.int (getenv env "SONARR_LIMIT" "10") = Some (SONARR_LIMIT st)
  /\ Py.int (getenv env "SONARR_CUTOFF_LIMIT" "0") = Some (SONARR_CUTOFF_LIMIT st)
  /\ Py.int (getenv env "RADARR_LIMIT" "10") = Some (RADARR_LIMIT st)
  /\ Py.int (getenv env "RADARR_CUTOFF_LIMIT" "0") = Some (RADARR_CUTOFF_LIMIT st)
  /\ SONARR_ENABLED st =
     Py.truthy (env !! "SONARR_URL") && Py.truthy (env !! "SONARR_API_KEY")
  /\ RADARR_ENABLED st =
     Py.truthy (env !! "RADARR_URL") && Py.truthy (env !! "RADARR_API_KEY").
Proof.
  unfold load_settings. intros Hload.
  destruct (Py.int (getenv env "REQUEST_DELAY_SECONDS" "2")); [|done].
  destruct (Py.int (getenv env "MAX_CYCLE_DAYS" "30")); [|done].
  destruct (Py.int (getenv env "RUN_EVERY" "15")); [|done].
  destruct (Py.int (getenv env "SONARR_LIMIT" "10")); [|done].
  destruct (Py.int (getenv env "SONARR_CUTOFF_LIMIT" "0")); [|done].
  destruct (Py.int (getenv env "RADARR_LIMIT" "10")); [|done].
  destruct (Py.int (getenv env "RADARR_CUTOFF_LIMIT" "0")); [|done].
  simpl in Hload. injection Hload as <-. simpl. done.
Qed.

Lemma truthy_true v :
  Py.truthy v = true <-> exists s, v = Some s /\ s <> EmptyString.
Proof.
  unfold Py.truthy. destruct v as [s|].
  - rewrite negb_true_iff, String.eqb_neq. split; [eauto|].
    by intros (? & [= <-] & ?).
  - split; [done | by intros (? & ? & _)].
Qed.

(** X16.  In the settings that load, a category is enabled exactly when
    its URL and its API key are both set in the environment and neither
    is the empty string. *)
Theorem load_settings_enabled_iff env st :
  load_settings env = Some st ->
  (SONARR_ENABLED st = true <->
   exists url key,
     env !! "SONARR_URL" = Some url /\ url <> EmptyString
     /\ env !! "SONARR_API_KEY" = Some key /\ key <> EmptyString)
  /\ (RADARR_ENABLED st = true <->
      exists url key,
        env !! "RADARR_URL" = Some url /\ url <> EmptyString
        /\ env !! "RADARR_API_KEY" = Some key /\ key <> EmptyString).
Proof.
  intros (_ & _ & _ & _ & _ & _ & -> & ->)%load_settings_Some.
  rewrite !andb_true_iff, !truthy_true. split; split.
  - intros [(u & ? & ?) (k & ? & ?)]. by exists u, k.
  - intros (u & k & ? & ? & ? & ?). split; [by exists u | by exists k].
  - intros [(u & ? & ?) (k & ? & ?)]. by exists u, k.
  - intros (u & k & ? & ? & ? & ?). split; [by exists u | by exists k].
Qed.

(** *** Creating the tables *)

(** X18.  [init_db] never changes a table that exists, whichever of its
    statements fail; when they all go through both tables exist
    afterwards, a table it had to create being empty; and run again after
    that, it changes nothing, whatever fails then. *)
Theorem init_db_file_keeps_tables connect_ok sonarr_ok radarr_ok f :
  (forall rows, sonarr_table f = Some rows ->
     sonarr_table (init_db_file connect_ok sonarr_ok radarr_ok f) = Some rows)
  /\ (forall rows, radarr_table f = Some rows ->
        radarr_table (init_db_file connect_ok sonarr_ok radarr_ok f) = Some rows)
  /\ open_tables (init_db_file true true true f) =
     Some {| sonarr_searches := default [] (sonarr_table f);
             radarr_searches := default [] (radarr_table f) |}
  /\ init_db_file connect_ok sonarr_ok radarr_ok (init_db_file true true true f) =
     init_db_file true true true f.
Proof.
  destruct f as [[s|] [r|]], connect_ok, sonarr_ok, radarr_ok; simpl;
    repeat split; intros; simplify_eq; done.
Qed.


(** *** The safety net and the rest of the cycle *)

(** Where a row of the ledger comes from after a cycle. *)
Lemma run_cycle_rows st app w db r :
  r ∈ table app (run_cycle st app w db).1 ->
  r ∈ table app db
  \/ (r.1 ∈ posted_ids (run_cycle st app w db).2
      /\ post_ok w r.1 = true /\ insert_ok w r.1 = true
      /\ r.2 = insert_time w r.1).
Proof.
  destruct (app_enabled st app) eqn:He;
    [|rewrite (run_cycle_disabled _ _ _ _ He); by left].
  rewrite (run_cycle_posts _ _ _ _ He).
  rewrite (run_cycle_enabled _ _ _ _ He). cbv zeta. simpl.
  assert (H1 : r ∈ table app (check_safety_net st app w db).1 -> r ∈ table app db).
  { destruct (check_safety_net_cases st app w db) as [->| ->]; simpl; [done|].
    rewrite table_wipe_table. destruct (safety_wipe_ok w); [|done].
    by intros ?%elem_of_nil. }
  unfold cycle_target, cycle_searched, cycle_candidates.
  destruct (dispatch_cases st app w
              (get_combined_content app w (app_limit st app)
                 (app_cutoff_limit st app)).1
              (check_safety_net st app w db).1) as [->|[->| ->]]; simpl.
  - intros Hr. left. by apply H1.
  - rewrite table_wipe_table. destruct (reset_wipe_ok w).
    + by intros ?%elem_of_nil.
    + intros Hr. left. by apply H1.
  - intros [Hr|Hr]%trigger_search_rows; [left; by apply H1 | by right].
Qed.

(** A cycle whose safety net wipes runs on as a cycle on the emptied
    ledger does. *)
Lemma run_cycle_after_wipe st app w db :
  app_enabled st app = true ->
  check_safety_net st app w db = (set_table app [] db, [EvWipe app]) ->
  run_cycle st app w db =
  ((run_cycle st app w (set_table app [] db)).1,
   EvWipe app :: (run_cycle st app w (set_table app [] db)).2).
Proof.
  intros He Hc. rewrite !(run_cycle_enabled _ _ _ _ He). cbv zeta.
  rewrite Hc.
  rewrite (check_safety_net_empty st app w (set_table app [] db))
    by apply table_set_table.
  done.
Qed.

(** C6 (as amended).  In a cycle of an enabled category whose safety net
    reads and deletes without error, with [MAX_CYCLE_DAYS] a number of
    days that [timedelta] takes, a ledger whose oldest entry is older than
    [MAX_CYCLE_DAYS] days when the cycle starts is wiped as the first act
    of the cycle, before the first GET of the candidate fetch and whatever
    the candidates turn out to be: the filter loads an empty searched
    set, the cycle goes on as a cycle on the emptied ledger does, and
    every row the ledger holds afterwards was inserted by a search
    command of this cycle.  A ledger whose oldest entry is not older than
    that, or that is empty, leaves the safety net as it entered. *)
Theorem safety_net st app w db :
  (forall oldest,
      oldest_timestamp (table app db) = Some oldest ->
      now w - oldest > MAX_CYCLE_DAYS st * day ->
      Z.abs (MAX_CYCLE_DAYS st) <= 999999999 ->
      oldest_read_ok w = true ->
      safety_wipe_ok w = true ->
      app_enabled st app = true ->
      table app (check_safety_net st app w db).1 = []
      /\ cycle_searched st app w db = ∅
      /\ (exists q tr, (run_cycle st app w db).2 = EvWipe app :: EvGet app q :: tr)
      /\ run_cycle st app w db =
         ((run_cycle st app w (set_table app [] db)).1,
          EvWipe app :: (run_cycle st app w (set_table app [] db)).2)
      /\ (forall r, r ∈ table app (run_cycle st app w db).1 ->
            r.1 ∈ posted_ids (run_cycle st app w db).2
            /\ r.2 = insert_time w r.1))
  /\ (forall oldest,
      oldest_timestamp (table app db) = Some oldest ->
      now w - oldest <= MAX_CYCLE_DAYS st * day ->
      check_safety_net st app w db = (db, []))
  /\ (table app db = [] -> check_safety_net st app w db = (db, [])).
Proof.
  split; [|split].
  - intros oldest Ho Hage Hdays Hread Hwipe He.
    pose proof (check_safety_net_old _ _ _ _ _ Hdays Hread Ho Hage) as Hc.
    rewrite Hwipe in Hc. simpl in Hc.
    pose proof (run_cycle_after_wipe _ _ _ _ He Hc) as Hrun.
    split; [|split; [|split; [|split]]].
    + rewrite Hc. apply table_set_table.
    + unfold cycle_searched, get_searched_ids. rewrite Hc. simpl.
      rewrite table_set_table. by destruct (ids_read_ok w).
    + rewrite (run_cycle_enabled _ _ _ _ He). simpl. rewrite Hc. simpl.
      destruct (get_combined_content_first_get app w (app_limit st app)
                  (app_cutoff_limit st app)) as (q & tr & ->).
      simpl. eauto.
    + exact Hrun.
    + intros r. rewrite Hrun. simpl.
      intros [Hr|(? & _ & _ & ?)]%run_cycle_rows; [|done].
      rewrite table_set_table in Hr. by apply elem_of_nil in Hr.
  - apply check_safety_net_young.
  - apply check_safety_net_empty.
Qed.

End CycleEngine.

(** ** The two readings of [list(set(xs))] used below *)

(** First-discovery order is one admissible iteration order. *)
Lemma elem_of_discovery_order x xs : x ∈ discovery_order xs <-> x ∈ xs.
Proof.
  induction xs as [|y xs IH]; simpl; [done|].
  rewrite !elem_of_cons, <- IH, list_elem_of_In, filter_In, <- list_elem_of_In.
  rewrite negb_true_iff, Z.eqb_neq.
  destruct (decide (x = y)); tauto.
Qed.

Lemma discovery_order_NoDup xs : NoDup (discovery_order xs).
Proof.
  induction xs as [|y xs IH]; simpl; [apply NoDup_nil_2|].
  apply NoDup_cons. split.
  - rewrite list_elem_of_In, filter_In, negb_true_iff, Z.eqb_neq. tauto.
  - apply NoDup_ListNoDup, List.NoDup_filter, NoDup_ListNoDup, IH.
Qed.

(** CPython's table puts 7 in slot 7 and 5 in slot 5, whatever came
    first; on a collision the first comer keeps the slot. *)
Example small_set_list_by_slot :
  small_set_list [7; 5] = [5; 7] /\ small_set_list [5; 7; 9] = [9; 5; 7]
  /\ small_set_list [8; 0] = [8; 0] /\ small_set_list [0; 8] = [0; 8]
  /\ small_set_list [7; 5; 7] = [5; 7].
Proof. repeat split; reflexivity. Qed.

(** ** The theorems at work on sample cycles *)

(** The end-to-end scenario: limit 2, candidates 5, 7 and 9, an empty
    ledger.  The set lists them as 9, 5, 7. *)
Example scenario_first_cycle :
  run_cycle small_set_list (sample_settings 2 0) sonarr (missing_world 0 [5; 7; 9])
    init_db =
  (sonarr_ledger [(9, 0); (5, 0)],
   [EvGet sonarr QMissing;
    EvPost sonarr 9 true; EvInsert sonarr 9; EvSleep 2;
    EvPost sonarr 5 true; EvInsert sonarr 5; EvSleep 2]).
Proof. reflexivity. Qed.

Example scenario_second_cycle :
  run_cycle small_set_list (sample_settings 2 0) sonarr (missing_world 1 [5; 7; 9])
    (sonarr_ledger [(9, 0); (5, 0)]) =
  (sonarr_ledger [(9, 0); (5, 0); (7, 1)],
   [EvGet sonarr QMissing; EvPost sonarr 7 true; EvInsert sonarr 7; EvSleep 2]).
Proof. reflexivity. Qed.

Example scenario_third_cycle :
  run_cycle small_set_list (sample_settings 2 0) sonarr (missing_world 2 [5; 7; 9])
    (sonarr_ledger [(9, 0); (5, 0); (7, 1)]) =
  (sonarr_ledger [], [EvGet sonarr QMissing; EvWipe sonarr]).
Proof. reflexivity. Qed.

Example load_defaults : load_settings ∅ = Some default_settings.
Proof. reflexivity. Qed.

Lemma completion_reset_witness :
  posted_ids
    (run_cycle small_set_list (sample_settings 10 0) sonarr (missing_world 0 [5])
       (sonarr_ledger [(5, 0)])).2 = []
  /\ table sonarr
       (run_cycle small_set_list (sample_settings 10 0) sonarr (missing_world 0 [5])
          (sonarr_ledger [(5, 0)])).1 = [].
Proof.
  destruct (completion_reset small_set_list (sample_settings 10 0) sonarr
              (missing_world 0 [5]) (sonarr_ledger [(5, 0)]))
    as (Hposts & Hwipe & _).
  - reflexivity.
  - intros i Hi.
    change (i ∈ [5]) in Hi. apply list_elem_of_singleton in Hi. rewrite Hi.
    change (5 ∈ (list_to_set [5] : gset Z)).
    apply elem_of_list_to_set, list_elem_of_singleton. reflexivity.
  - split; [exact Hposts|].
    apply Hwipe; [discriminate | reflexivity].
Defined.

Lemma target_keeps_candidate_order_witness :
  posted_ids
    (run_cycle small_set_list (sample_settings 2 0) sonarr (missing_world 0 [5; 7; 9])
       init_db).2 =
  Py.slice_to
    (cycle_target small_set_list (sample_settings 2 0) sonarr
       (missing_world 0 [5; 7; 9]) init_db) 2.
Proof.
  apply (target_keeps_candidate_order small_set_list (sample_settings 2 0) sonarr
           (missing_world 0 [5; 7; 9]) init_db).
  reflexivity.
Defined.

Lemma dispatched_disjoint_from_ledger_witness :
  7 ∉ (table sonarr
         (check_safety_net (sample_settings 2 0) sonarr (missing_world 1 [5; 7; 9])
            (sonarr_ledger [(9, 0); (5, 0)])).1).*1.
Proof.
  apply (dispatched_disjoint_from_ledger small_set_list (sample_settings 2 0) sonarr
           (missing_world 1 [5; 7; 9]) (sonarr_ledger [(9, 0); (5, 0)])).
  - reflexivity.
  - change (7 ∈ [7]). apply list_elem_of_singleton. reflexivity.
Defined.

Lemma batch_bound_witness :
  Z.of_nat
    (length
       (posted_ids
          (run_cycle small_set_list (sample_settings 2 0) sonarr
             (missing_world 0 [5; 7; 9]) init_db).2)) <= 2.
Proof.
  apply (batch_bound small_set_list (sample_settings 2 0) sonarr
           (missing_world 0 [5; 7; 9]) init_db).
  simpl. lia.
Defined.

Lemma safety_net_witness :
  table sonarr
    (check_safety_net (sample_settings 10 0) sonarr (missing_world (31 * day) [5])
       (sonarr_ledger [(5, 0)])).1 = []
  /\ (exists q tr,
        (run_cycle small_set_list (sample_settings 10 0) sonarr
           (missing_world (31 * day) [5]) (sonarr_ledger [(5, 0)])).2 =
        EvWipe sonarr :: EvGet sonarr q :: tr)
  /\ run_cycle small_set_list (sample_settings 10 0) sonarr
        (missing_world (31 * day) [5]) (sonarr_ledger [(5, 0)]) =
      ((run_cycle small_set_list (sample_settings 10 0) sonarr
          (missing_world (31 * day) [5]) (set_table sonarr [] (sonarr_ledger [(5, 0)]))).1,
       EvWipe sonarr ::
       (run_cycle small_set_list (sample_settings 10 0) sonarr
          (missing_world (31 * day) [5]) (set_table sonarr [] (sonarr_ledger [(5, 0)]))).2).
Proof.
  destruct (safety_net small_set_list (sample_settings 10 0) sonarr
              (missing_world (31 * day) [5]) (sonarr_ledger [(5, 0)]))
    as (Hold & _ & _).
  destruct (Hold 0) as (Hwiped & _ & Htrace & Hrun & _).
  - reflexivity.
  - reflexivity.
  - simpl. lia.
  - reflexivity.
  - reflexivity.
  - reflexivity.
  - split; [exact Hwiped|]. split; [exact Htrace | exact Hrun].
Defined.

Lemma add_searched_id_idempotent_witness :
  add_searched_id sonarr 7 300 true
    (add_searched_id sonarr 7 200 true (sonarr_ledger [(5, 100)])) =
  add_searched_id sonarr 7 200 true (sonarr_ledger [(5, 100)])
  /\ length
       (entries_of 7
          (table sonarr
             (add_searched_id sonarr 7 300 true
                (add_searched_id sonarr 7 200 true (sonarr_ledger [(5, 100)])))))
     = 1%nat
  /\ timestamp_of 7
       (table sonarr
          (add_searched_id sonarr 7 300 true
             (add_searched_id sonarr 7 200 true (sonarr_ledger [(5, 100)]))))
     = Some 200.
Proof.
  destruct (add_searched_id_idempotent sonarr 7 200 300 (sonarr_ledger [(5, 100)]))
    as (Hsame & _ & Hone & Hfirst & _).
  - change (NoDup [5]). apply NoDup_singleton.
  - split; [exact Hsame|]. split; [exact Hone | exact Hfirst].
Defined.

Lemma cutoff_limit_is_a_flag_witness :
  run_cycle small_set_list (with_cutoff_limit (sample_settings 10 0) sonarr 1) sonarr
    cutoff_only_world init_db =
  run_cycle small_set_list (with_cutoff_limit (sample_settings 10 0) sonarr 5) sonarr
    cutoff_only_world init_db.
Proof.
  apply (cutoff_limit_is_a_flag small_set_list (sample_settings 10 0) sonarr
           cutoff_only_world init_db 1 5).
  split; intros _; reflexivity.
Defined.

Lemma run_every_key_witness :
  Py.int (getenv ∅ "RUN_EVERY" "15") = Some 15
  /\ load_settings (<["RUN_EVERY_MINUTES" := "5"]> ∅) = Some default_settings.
Proof.
  destruct (run_every_key ∅ default_settings) as (Hkey & _ & Hignored).
  - reflexivity.
  - split; [exact Hkey | exact (Hignored "5")].
Defined.

(** ** Where the code departs from the claims *)

(** C1, as stated, fails when the candidate list is empty: the ledger
    holds id 1, nothing is wanted, so [C] is empty, a subset of the
    non-empty [S]; the cycle ends after the fetch and id 1 stays. *)
Lemma completion_reset_not_on_empty_candidates :
  app_enabled (sample_settings 10 0) sonarr = true
  /\ cycle_candidates small_set_list (sample_settings 10 0) sonarr (missing_world 0 []) = []
  /\ 1 ∈ cycle_searched (sample_settings 10 0) sonarr (missing_world 0 [])
           (sonarr_ledger [(1, 0)])
  /\ table sonarr
       (run_cycle small_set_list (sample_settings 10 0) sonarr (missing_world 0 [])
          (sonarr_ledger [(1, 0)])).1 <> [].
Proof.
  split; [reflexivity|]. split; [reflexivity|]. split; [|discriminate].
  change (1 ∈ (list_to_set [1] : gset Z)).
  apply elem_of_list_to_set, list_elem_of_singleton. reflexivity.
Qed.

(** C2, as stated, fails on the order: the missing query lists 7 and
    then 5, the set lists them as 5, 7, and with limit 1 the cycle
    searches 5 where the first id discovered is 7. *)
Lemma discovery_order_not_kept :
  fetch_ids_from_endpoint (missing_resp (missing_world 0 [7; 5])) = [7; 5]
  /\ cycle_target small_set_list (sample_settings 1 0) sonarr (missing_world 0 [7; 5])
       init_db <>
     filter
       (fun i => i ∉ cycle_searched (sample_settings 1 0) sonarr
                       (missing_world 0 [7; 5]) init_db)
       (discovery_order
          (fetch_ids_from_endpoint (missing_resp (missing_world 0 [7; 5]))))
  /\ posted_ids
       (run_cycle small_set_list (sample_settings 1 0) sonarr (missing_world 0 [7; 5])
          init_db).2 <>
     Py.slice_to
       (filter
          (fun i => i ∉ cycle_searched (sample_settings 1 0) sonarr
                          (missing_world 0 [7; 5]) init_db)
          (discovery_order
             (fetch_ids_from_endpoint (missing_resp (missing_world 0 [7; 5])))))
       1.
Proof.
  split; [reflexivity|]. split; intros H; vm_compute in H; discriminate H.
Qed.

(** C5, as stated, fails on the key: with [RUN_EVERY_MINUTES=5] in the
    environment the interval is still 15. *)
Lemma run_every_minutes_key_not_read :
  exists st,
    load_settings {["RUN_EVERY_MINUTES" := "5"]} = Some st
    /\ Py.int (getenv {["RUN_EVERY_MINUTES" := "5"]} "RUN_EVERY_MINUTES" "15")
       = Some 5
    /\ RUN_EVERY_MINUTES st <> 5.
Proof.
  exists default_settings. split; [reflexivity|]. split; [reflexivity|].
  discriminate.
Qed.

(** C9, as stated, fails on a negative limit: with limit -1 and three
    pending ids the slice drops the last one and two searches go out. *)
Lemma batch_bound_fails_negative_limit :
  app_limit (sample_settings (-1) 0) sonarr = -1
  /\ posted_ids
       (run_cycle small_set_list (sample_settings (-1) 0) sonarr
          (missing_world 0 [1; 2; 3]) init_db).2 = [1; 2]
  /\ ~ Z.of_nat
         (length
            (posted_ids
               (run_cycle small_set_list (sample_settings (-1) 0) sonarr
                  (missing_world 0 [1; 2; 3]) init_db).2))
       <= app_limit (sample_settings (-1) 0) sonarr.
Proof.
  split; [reflexivity|]. split; [reflexivity|].
  intros H. vm_compute in H. apply H. reflexivity.
Qed.

(** C10, as stated, fails on the sign: -1 and 1 are both nonzero, yet
    with -1 the cutoff endpoint is not asked and with 1 its id 3 is
    searched. *)
Lemma cutoff_limit_negative_is_disabled :
  -1 <> 0 /\ 1 <> 0
  /\ run_cycle small_set_list (with_cutoff_limit (sample_settings 10 0) sonarr (-1))
       sonarr cutoff_only_world init_db
     = (init_db, [EvGet sonarr QMissing])
  /\ run_cycle small_set_list (with_cutoff_limit (sample_settings 10 0) sonarr 1)
       sonarr cutoff_only_world init_db
     = (sonarr_ledger [(3, 0)],
        [EvGet sonarr QMissing; EvGet sonarr QCutoff;
         EvPost sonarr 3 true; EvInsert sonarr 3; EvSleep 2])
  /\ run_cycle small_set_list (with_cutoff_limit (sample_settings 10 0) sonarr (-1))
       sonarr cutoff_only_world init_db
     <> run_cycle small_set_list (with_cutoff_limit (sample_settings 10 0) sonarr 1)
          sonarr cutoff_only_world init_db.
Proof.
  split; [discriminate|]. split; [discriminate|].
  split; [reflexivity|]. split; [reflexivity|].
  intros H. vm_compute in H. discriminate H.
Qed.

(** C6, as stated, fails where the safety net is fail-soft.  The ledger
    holds id 5, recorded at instant 0, and id 7 is missing.  On day 31
    with the DELETE failing, on day 31 with the SELECT failing, and at
    instant 0 with [MAX_CYCLE_DAYS = -1000000000], which [timedelta]
    refuses, the oldest entry is older than [MAX_CYCLE_DAYS] days, yet the
    ledger is not wiped before the fetch and the row of id 5 outlives the
    cycle. *)
Lemma safety_net_is_fail_soft :
  oldest_timestamp (table sonarr (sonarr_ledger [(5, 0)])) = Some 0
  /\ (now (day31_world true false) - 0 > MAX_CYCLE_DAYS (sample_settings 10 0) * day
      /\ table sonarr
           (check_safety_net (sample_settings 10 0) sonarr (day31_world true false)
              (sonarr_ledger [(5, 0)])).1 <> []
      /\ table sonarr
           (run_cycle small_set_list (sample_settings 10 0) sonarr
              (day31_world true false) (sonarr_ledger [(5, 0)])).1
         = [(5, 0); (7, 31 * day)])
  /\ (now (day31_world false true) - 0 > MAX_CYCLE_DAYS (sample_settings 10 0) * day
      /\ table sonarr
           (check_safety_net (sample_settings 10 0) sonarr (day31_world false true)
              (sonarr_ledger [(5, 0)])).1 <> []
      /\ table sonarr
           (run_cycle small_set_list (sample_settings 10 0) sonarr
              (day31_world false true) (sonarr_ledger [(5, 0)])).1
         = [(5, 0); (7, 31 * day)])
  /\ (now (missing_world 0 [7]) - 0
        > MAX_CYCLE_DAYS (settings_with_days (-1000000000)) * day
      /\ table sonarr
           (check_safety_net (settings_with_days (-1000000000)) sonarr
              (missing_world 0 [7]) (sonarr_ledger [(5, 0)])).1 <> []
      /\ table sonarr
           (run_cycle small_set_list (settings_with_days (-1000000000)) sonarr
              (missing_world 0 [7]) (sonarr_ledger [(5, 0)])).1
         = [(5, 0); (7, 0)]).
Proof.
  split; [reflexivity|].
  repeat split; try reflexivity; discriminate.
Qed.

(** C3, evaluated where the code misses it.  Radarr's catalogue request
    fails while its cutoff endpoint would list id 3: the fetch returns no
    candidate and the cutoff endpoint is not even asked.  Sonarr, in the
    same world, returns id 3. *)
Theorem radarr_missing_failure_drops_cutoff :
  movies_resp missing_down_world = MoviesError
  /\ fetch_ids_from_endpoint (cutoff_resp missing_down_world) = [3]
  /\ get_combined_content small_set_list radarr missing_down_world 10 1
     = ([], [EvGet radarr QMovies])
  /\ get_combined_content small_set_list sonarr missing_down_world 10 1
     = ([3], [EvGet sonarr QMissing; EvGet sonarr QCutoff]).
Proof. repeat split; reflexivity. Qed.

(** C4, evaluated where the code misses it.  With a delay of 2 the
    command for id 1 fails and the command for id 2 follows with no
    sleep between them; the sleep comes only after the successful one. *)
Theorem no_pause_after_failed_post :
  REQUEST_DELAY_SECONDS (sample_settings 10 0) = 2
  /\ (trigger_search (sample_settings 10 0) sonarr failing_post_world [1; 2]
        init_db).2
     = [EvPost sonarr 1 false;
        EvPost sonarr 2 true; EvInsert sonarr 2; EvSleep 2].
Proof. split; reflexivity. Qed.

(** ** The further properties at work *)

Lemma run_cycle_other_table_witness :
  table radarr
    (run_cycle small_set_list (sample_settings 2 0) sonarr (missing_world 0 [5; 7; 9])
       init_db).1 = table radarr init_db.
Proof.
  apply (run_cycle_other_table small_set_list (sample_settings 2 0) sonarr radarr
           (missing_world 0 [5; 7; 9]) init_db).
  discriminate.
Defined.

Lemma job_primary_key_witness :
  primary_key
    (table sonarr
       (job small_set_list (sample_settings 2 0) (missing_world 0 [5; 7; 9])
          (missing_world 0 []) init_db).1).
Proof.
  apply (job_primary_key small_set_list (sample_settings 2 0)
           (missing_world 0 [5; 7; 9]) (missing_world 0 []) init_db sonarr).
  - apply NoDup_nil_2.
  - apply NoDup_nil_2.
Defined.

Lemma trigger_search_keeps_rows_witness :
  (5, 100) ∈ table sonarr
               (trigger_search (sample_settings 2 0) sonarr failing_post_world
                  [5; 1; 7] (sonarr_ledger [(5, 100)])).1
  /\ timestamp_of 5
       (table sonarr
          (trigger_search (sample_settings 2 0) sonarr failing_post_world [5; 1; 7]
             (sonarr_ledger [(5, 100)])).1) = Some 100.
Proof.
  destruct (trigger_search_keeps_rows (sample_settings 2 0) sonarr
              failing_post_world [5; 1; 7] (sonarr_ledger [(5, 100)]) 5 100)
    as [Hrows Htime].
  - reflexivity.
  - split; [|exact Htime]. apply Hrows. left.
Defined.


Lemma fetch_ids_all_or_nothing_witness :
  exists items,
    (records [1; 2] = RespJson (JRecords items)
     \/ records [1; 2] = RespJson (JList items))
    /\ items = Some <$> fetch_ids_from_endpoint (records [1; 2]).
Proof.
  apply (fetch_ids_all_or_nothing (records [1; 2])).
  discriminate.
Defined.

Lemma sonarr_candidates_union_witness :
  3 ∈ (get_combined_content discovery_order sonarr cutoff_only_world 10 1).1 <->
  3 ∈ fetch_ids_from_endpoint (missing_resp cutoff_only_world)
  \/ (0 < 1 /\ 3 ∈ fetch_ids_from_endpoint (cutoff_resp cutoff_only_world)).
Proof.
  apply (sonarr_candidates_union discovery_order discovery_order_NoDup
           (fun x xs => elem_of_discovery_order x xs) cutoff_only_world 10 1 3).
Defined.

Lemma radarr_missing_selects_witness :
  1 ∈ [1] <->
  exists m, m ∈ sample_movies /\ movie_id m = Some 1
            /\ hasFile m = false /\ monitored m = true.
Proof.
  apply (radarr_missing_selects sample_movies [1] 1).
  reflexivity.
Defined.

Lemma read_failure_searches_again_witness :
  posted_ids
    (run_cycle small_set_list (sample_settings 2 0) sonarr (read_failure_world [5; 7])
       (sonarr_ledger [(5, 0); (7, 0)])).2 = [5; 7].
Proof.
  rewrite (read_failure_searches_again small_set_list (sample_settings 2 0) sonarr
             (read_failure_world [5; 7]) (sonarr_ledger [(5, 0); (7, 0)])).
  - reflexivity.
  - reflexivity.
  - reflexivity.
Defined.

Lemma cycle_progress_witness :
  filter
    (fun i => i ∉ get_searched_ids sonarr true
                    (run_cycle discovery_order (sample_settings 2 0) sonarr
                       (missing_world 0 [5; 7; 9]) init_db).1)
    (cycle_candidates discovery_order (sample_settings 2 0) sonarr
       (missing_world 0 [5; 7; 9])) =
  drop 2
    (cycle_target discovery_order (sample_settings 2 0) sonarr
       (missing_world 0 [5; 7; 9]) init_db).
Proof.
  apply (cycle_progress discovery_order discovery_order_NoDup (sample_settings 2 0)
           sonarr (missing_world 0 [5; 7; 9]) init_db).
  - reflexivity.
  - reflexivity.
  - intros i _. split; reflexivity.
  - simpl. lia.
  - intros H. vm_compute in H. discriminate H.
Defined.

Lemma no_wipe_keeps_rows_witness :
  (9, 0) ∈ table sonarr
             (run_cycle small_set_list (sample_settings 2 0) sonarr
                (missing_world 1 [5; 7; 9]) (sonarr_ledger [(9, 0); (5, 0)])).1.
Proof.
  apply (no_wipe_keeps_rows small_set_list (sample_settings 2 0) sonarr
           (missing_world 1 [5; 7; 9]) (sonarr_ledger [(9, 0); (5, 0)]) (9, 0)).
  - change (EvWipe sonarr ∉
            [EvGet sonarr QMissing; EvPost sonarr 7 true; EvInsert sonarr 7;
             EvSleep 2]).
    repeat (apply not_elem_of_cons; split; [discriminate|]).
    apply not_elem_of_nil.
  - left.
Defined.

Lemma load_settings_enabled_iff_witness :
  SONARR_ENABLED sonarr_env_settings = true <->
  exists url key,
    sonarr_env !! "SONARR_URL" = Some url /\ url <> EmptyString
    /\ sonarr_env !! "SONARR_API_KEY" = Some key /\ key <> EmptyString.
Proof.
  apply (load_settings_enabled_iff sonarr_env sonarr_env_settings).
  reflexivity.
Defined.

Lemma safety_net_wipes_iff_old_entry_witness :
  (check_safety_net (sample_settings 10 0) sonarr (missing_world (31 * day) [5])
     (sonarr_ledger [(5, 30 * day); (7, 0)])).2 = [EvWipe sonarr].
Proof.
  apply (safety_net_wipes_iff_old_entry (sample_settings 10 0) sonarr
           (missing_world (31 * day) [5]) (sonarr_ledger [(5, 30 * day); (7, 0)])).
  - reflexivity.
  - simpl. lia.
  - exists (7, 0). split.
    + right. left.
    + reflexivity.
Defined.

Lemma run_cycle_ledger_provenance_witness :
  7 ∈ (table sonarr (sonarr_ledger [(9, 0); (5, 0)])).*1
  \/ (7 ∈ posted_ids
            (run_cycle small_set_list (sample_settings 2 0) sonarr
               (missing_world 1 [5; 7; 9]) (sonarr_ledger [(9, 0); (5, 0)])).2
      /\ post_ok (missing_world 1 [5; 7; 9]) 7 = true
      /\ insert_ok (missing_world 1 [5; 7; 9]) 7 = true).
Proof.
  apply (run_cycle_ledger_provenance small_set_list (sample_settings 2 0) sonarr
           (missing_world 1 [5; 7; 9]) (sonarr_ledger [(9, 0); (5, 0)]) 7).
  change (7 ∈ [9; 5; 7]). right. right. left.
Defined.
